(** * vue-quill-blog-editor: a shallow embedding of the wrapper component,
      the example image module and the example image service.

    Sources embedded here:
    - [src/QuillBlogEditor.vue]        (Module [QuillBlogEditor])
    - [playground/modules/ImageHandler.ts]  (Module [ImageHandler])
    - [playground/services/ImageService.ts] (Module [ImageService])

    The wrapped editor library (Quill) is not part of the repository: the
    component is stated over an interface of the library calls it makes. *)

From stdpp Require Import gmap strings list fin_maps.
From Stdlib Require Import ZArith.

Open Scope string_scope.

(** ** JavaScript values, as far as the sources use them *)

Module JS.

(** Configuration values ([any] in the sources): what object and array
    literals are built from.  [VRef] is a reference to a named function or
    host object (for instance [softBreakHandler], or [Object]). *)
#[warnings="-register-all"]
Inductive value :=
| VUndefined
| VNull
| VBool (b : bool)
| VNum (n : Z)
| VStr (s : string)
| VArr (items : list value)
| VObj (fields : list (string * value))
| VRef (name : string).

(** ToBoolean. *)
Definition truthy (v : value) : bool :=
  match v with
  | VUndefined | VNull => false
  | VBool b => b
  | VNum n => negb (n =? 0)%Z
  | VStr s => negb (String.eqb s EmptyString)
  | VArr _ | VObj _ | VRef _ => true
  end.

(** [a || b] *)
Definition or_else (a b : value) : value := if truthy a then a else b.

(** [s || ''] on a string: the empty string is the only falsy string. *)
Definition str_or_empty (s : string) : string :=
  if String.eqb s EmptyString then EmptyString else s.

(** The properties every object literal inherits from [Object.prototype].
    A property read [obj[key]] that finds no own property continues there. *)
Definition object_prototype_names : list string :=
  [ "constructor"; "__defineGetter__"; "__defineSetter__"; "hasOwnProperty";
    "__lookupGetter__"; "__lookupSetter__"; "isPrototypeOf";
    "propertyIsEnumerable"; "toString"; "valueOf"; "__proto__";
    "toLocaleString" ].

Definition object_prototype_get (key : string) : value :=
  if bool_decide (key ∈ object_prototype_names) then
    if String.eqb key "constructor" then VRef "Object"
    else if String.eqb key "__proto__" then VRef "Object.prototype"
    else VRef ("Object.prototype." ++ key)
  else VUndefined.

(** [obj[key]] for an object literal whose own properties are [own]. *)
Definition get (own : gmap string value) (key : string) : value :=
  match own !! key with
  | Some v => v
  | None => object_prototype_get key
  end.

(** [Object.keys(obj)]: the own property names. *)
Definition keys (own : gmap string value) : list string :=
  (map_to_list own).*1.

(** [key in obj]: an own or an inherited property. *)
Definition has (own : gmap string value) (key : string) : bool :=
  bool_decide (is_Some (own !! key))
  || bool_decide (key ∈ object_prototype_names).

(** [obj[key] = v].  Assigning [__proto__] runs the inherited setter, which
    re-links the prototype and creates no own property; the model tracks the
    own properties. *)
Definition set (own : gmap string value) (key : string) (v : value)
  : gmap string value :=
  if String.eqb key "__proto__" then own else <[key := v]> own.

(** Primitive values: what a Delta embed holds.  On these, equality is
    what [Array.prototype.includes] (SameValueZero) decides. *)
Inductive prim :=
| PUndefined
| PNull
| PBool (b : bool)
| PNum (n : Z)
| PStr (s : string).

#[global] Instance prim_eq_dec : EqDecision prim.
Proof. solve_decision. Defined.

Definition prim_truthy (v : prim) : bool :=
  match v with
  | PUndefined | PNull => false
  | PBool b => b
  | PNum n => negb (n =? 0)%Z
  | PStr s => negb (String.eqb s EmptyString)
  end.

End JS.

(** ** The wrapper component, [src/QuillBlogEditor.vue] *)

Module QuillBlogEditor.
Import JS.

(** *** Props *)

(** [toolbar: {type: [String, Array], default: 'full'}] *)
Inductive toolbar_prop :=
| ToolbarName (name : string)
| ToolbarArray (items : list value).

(** [options]: the [modules] entry (absent, or an object) and the remaining
    entries, as the destructuring [{modules, ...otherOptions}] splits them. *)
Record options_prop := {
  modules : option (gmap string value);
  otherOptions : gmap string value;
}.

Record props := {
  modelValue : string;
  theme : string;
  placeholder : string;
  readOnly : bool;
  formats : option (list string);
  toolbar : toolbar_prop;
  options : options_prop;
}.

(** *** Toolbar presets *)

Definition TOOLBAR_PRESETS_full : value :=
  VArr [
    VArr [VObj [("header", VArr [VNum 1; VNum 2; VNum 3; VBool false])]];
    VArr [VStr "bold"; VStr "italic"; VStr "underline"; VStr "strike"];
    VArr [VObj [("list", VStr "ordered")]; VObj [("list", VStr "bullet")]];
    VArr [VObj [("indent", VStr "-1")]; VObj [("indent", VStr "+1")]];
    VArr [VObj [("align", VArr [])]];
    VArr [VStr "blockquote"; VStr "code-block"];
    VArr [VStr "link"; VStr "image"];
    VArr [VStr "clean"]
  ].

Definition TOOLBAR_PRESETS_basic : value :=
  VArr [
    VArr [VStr "bold"; VStr "italic"];
    VArr [VStr "link"]
  ].

Definition TOOLBAR_PRESETS : gmap string value :=
  <["full" := TOOLBAR_PRESETS_full]> (<["basic" := TOOLBAR_PRESETS_basic]> ∅).

(** [Array.isArray(props.toolbar) ? props.toolbar
      : TOOLBAR_PRESETS[props.toolbar] || TOOLBAR_PRESETS.full] *)
Definition toolbar_config (t : toolbar_prop) : value :=
  match t with
  | ToolbarArray items => VArr items
  | ToolbarName name =>
      or_else (get TOOLBAR_PRESETS name) (get TOOLBAR_PRESETS "full")
  end.

(** *** Module configuration *)

Definition keyboard_default : value :=
  VObj [("bindings",
    VObj [("shift+enter",
      VObj [("key", VArr [VStr "Enter"]);
            ("shiftKey", VBool true);
            ("handler", VRef "softBreakHandler")])])].

(** The object literal [mergedModules] starts from. *)
Definition defaultModules (t : toolbar_prop) : gmap string value :=
  <["keyboard" := keyboard_default]> (<["toolbar" := toolbar_config t]> ∅).

(** One turn of [for (const key of Object.keys(props.options.modules))]. *)
Definition merge_step (m : gmap string value)
    (merged : gmap string value) (key : string) : gmap string value :=
  if String.eqb key "toolbar" then merged
  else set merged key (get m key).

Definition mergedModules (t : toolbar_prop)
    (caller : option (gmap string value)) : gmap string value :=
  let merged := defaultModules t in
  match caller with
  | None => merged
  | Some m =>
      let merged := foldl (merge_step m) merged (keys m) in
      if has m "toolbar" then set merged "toolbar" (get m "toolbar")
      else merged
  end.

(** [finalOptions]: the component's own entries, then [...otherOptions]
    spread over them; [modules] was split off, so [mergedModules] stays. *)
Record final_options := {
  fo_modules : gmap string value;
  fo_entries : gmap string value;
}.

Definition formats_value (f : option (list string)) : value :=
  match f with
  | None => VUndefined
  | Some l => VArr (VStr <$> l)
  end.

Definition finalOptions (p : props) : final_options :=
  {| fo_modules := mergedModules (toolbar p) (modules (options p));
     fo_entries :=
       otherOptions (options p) ∪
       (<["theme" := VStr (theme p)]>
         (<["placeholder" := VStr (placeholder p)]>
           (<["readOnly" := VBool (readOnly p)]>
             (<["formats" := formats_value (formats p)]> ∅)))) |}.

(** *** The wrapped library, as the component calls it *)

Inductive source := USER | SILENT | API.

(** A selection range. *)
Record range := { index : Z; length : Z }.

(** A leaf blot, as far as the component looks at it: which blot is its
    parent. *)
Record leaf := { parent : nat }.

(** The calls the component makes on a Quill instance; [Q] is the state of
    such an instance. *)
Class QuillAPI (Q : Type) := {
  (** [new Quill(container, finalOptions)] *)
  create : final_options → Q;
  (** [quill.root.innerHTML] *)
  innerHTML : Q → string;
  (** [quill.getLeaf(index)[0]], [None] for [null] *)
  getLeaf : Q → Z → option leaf;
  (** [quill.insertEmbed(index, blot, value, source)] *)
  insertEmbed : Z → string → value → source → Q → Q;
  (** [quill.setSelection(index, source)] *)
  setSelection : Z → source → Q → Q;
  (** [quill.clipboard.addMatcher(selector, matcher)] *)
  addMatcher : string → Q → Q;
  (** [quill.clipboard.dangerouslyPasteHTML(html)] *)
  dangerouslyPasteHTML : string → Q → Q;
}.

Section Component.
Context {Q : Type} `{!QuillAPI Q}.

(** What [emit] was called with. *)
Inductive emitted :=
| UpdateModelValue (html : string)
| Ready (instance : Q)
| TextChange
| Focus
| Blur.

(** The library calls that change the editor, in the order made. *)
Inductive api_call :=
| CallAddMatcher (selector : string)
| CallPasteHTML (html : string)
| CallInsertEmbed (at_index : Z) (blot : string) (v : value) (src : source)
| CallSetSelection (at_index : Z) (src : source).

(** The component instance: the module-level [quill] variable, the events a
    handler was registered for with [quill.on], and the record of what the
    component did. *)
Record component := {
  quill : option Q;
  listeners : list string;
  calls : list api_call;
  emits : list emitted;
}.

Definition initial : component :=
  {| quill := None; listeners := []; calls := []; emits := [] |}.

(** State passing, with the component as the state. *)
Definition M (A : Type) : Type := component → A * component.

Definition ret {A} (a : A) : M A := λ c, (a, c).

Definition bind {A B} (m : M A) (k : A → M B) : M B :=
  λ c, let '(a, c') := m c in k a c'.

Definition exec {A} (m : M A) (c : component) : component := (m c).2.

Notation "'do' x <- m ; k" := (bind m (λ x, k))
  (at level 10, x name, m at level 100, k at level 200).
Notation "m ;;; k" := (bind m (λ _, k))
  (at level 100, k at level 200, right associativity).

Definition emit (e : emitted) : M unit :=
  λ c, (tt, {| quill := quill c; listeners := listeners c;
               calls := calls c; emits := emits c ++ [e] |}).

(** A call that changes the editor: applied to the instance and recorded. *)
Definition call (what : api_call) (f : Q → Q) : M unit :=
  λ c, (tt, {| quill := f <$> quill c; listeners := listeners c;
               calls := calls c ++ [what]; emits := emits c |}).

(** [quill.on(event, handler)] *)
Definition on (event : string) : M unit :=
  λ c, (tt, {| quill := quill c; listeners := listeners c ++ [event];
               calls := calls c; emits := emits c |}).

(** [quill = markRaw(new Quill(...))] *)
Definition assign_quill (q : Q) : M unit :=
  λ c, (tt, {| quill := Some q; listeners := listeners c;
               calls := calls c; emits := emits c |}).

Definition read_quill : M (option Q) := λ c, (quill c, c).

Definition insert_br (i : Z) : M unit :=
  call (CallInsertEmbed i "br" (VBool true) USER)
       (insertEmbed i "br" (VBool true) USER).

(** *** [softBreakHandler] *)

(** [currentLeaf != null && (nextLeaf === null ||
      currentLeaf.parent !== nextLeaf.parent)] *)
Definition needs_second_break (currentLeaf nextLeaf : option leaf) : bool :=
  match currentLeaf with
  | None => false
  | Some cur =>
      match nextLeaf with
      | None => true
      | Some next => negb (Nat.eqb (parent cur) (parent next))
      end
  end.

Definition softBreakHandler (r : option range) (context : value) : M bool :=
  do oq <- read_quill;
  match oq, r with
  | Some q, Some rg =>
      let currentLeaf := getLeaf q (index rg) in
      let nextLeaf := getLeaf q (index rg + 1) in
      insert_br (index rg) ;;;
      (if needs_second_break currentLeaf nextLeaf
       then insert_br (index rg) else ret tt) ;;;
      call (CallSetSelection (index rg + 1) SILENT)
           (setSelection (index rg + 1) SILENT) ;;;
      ret false
  | _, _ => ret false
  end.

(** *** The handlers registered in [onMounted] *)

(** [quill!] is the instance the handler was registered on; the handler is
    never run without one. *)
Definition text_change_handler : M unit :=
  do oq <- read_quill;
  match oq with
  | Some q => emit (UpdateModelValue (innerHTML q)) ;;; emit TextChange
  | None => ret tt
  end.

Definition selection_change_handler (r : option range) : M unit :=
  match r with
  | None => emit Blur
  | Some _ => emit Focus
  end.

(** *** [onMounted]; [container] is [editorContainer.value] *)

Definition onMounted (p : props) (container : bool) : M unit :=
  if negb container then ret tt
  else
    assign_quill (create (finalOptions p)) ;;;
    call (CallAddMatcher "BR") (addMatcher "BR") ;;;
    call (CallPasteHTML (str_or_empty (modelValue p)))
         (dangerouslyPasteHTML (str_or_empty (modelValue p))) ;;;
    on "text-change" ;;;
    on "selection-change" ;;;
    do oq <- read_quill;
    match oq with
    | Some q => emit (Ready q)
    | None => ret tt
    end.

(** *** [watch(() => props.modelValue, ...)] *)

Definition watch_modelValue (newVal : string) : M unit :=
  do oq <- read_quill;
  match oq with
  | None => ret tt
  | Some q =>
      if negb (String.eqb newVal (innerHTML q))
      then call (CallPasteHTML (str_or_empty newVal))
                (dangerouslyPasteHTML (str_or_empty newVal))
      else ret tt
  end.

(** *** What happens to a component *)

(** The component once its [onMounted] hook has run. *)
Definition mount (p : props) (container : bool) : component :=
  exec (onMounted p container) initial.

(** What happens afterwards: the [modelValue] prop changes, the library
    delivers a notification to the registered handlers, the key binding
    fires, or the editor changes its own state (typing, rendering). *)
Inductive event :=
| EvModelValue (newVal : string)
| EvTextChange
| EvSelectionChange (r : option range)
| EvShiftEnter (r : option range) (context : value)
| EvEditor (q' : Q).

Definition listening (name : string) (c : component) : bool :=
  bool_decide (name ∈ listeners c).

Definition step (e : event) (c : component) : component :=
  match e with
  | EvModelValue newVal => exec (watch_modelValue newVal) c
  | EvTextChange =>
      if listening "text-change" c then exec text_change_handler c else c
  | EvSelectionChange r =>
      if listening "selection-change" c
      then exec (selection_change_handler r) c else c
  | EvShiftEnter r context => exec (softBreakHandler r context) c
  | EvEditor q' =>
      match quill c with
      | Some _ => exec (assign_quill q') c
      | None => c
      end
  end.

Definition run (es : list event) (c : component) : component :=
  foldl (λ c e, step e c) c es.

(** A component with an editor and both handlers registered. *)
Definition mounted (c : component) : Prop :=
  is_Some (quill c)
  ∧ listening "text-change" c = true
  ∧ listening "selection-change" c = true.

(** The payload of the last [update:modelValue] emitted so far. *)
Definition update_payload (e : emitted) : option string :=
  match e with
  | UpdateModelValue html => Some html
  | _ => None
  end.

Definition last_update (c : component) : option string :=
  last (omap update_payload (emits c)).

End Component.

End QuillBlogEditor.

(** ** Two-way binding *)

Module TwoWayBinding.
Import JS QuillBlogEditor.

Section Bound.
Context {Q : Type} `{!QuillAPI Q}.

(** Whether the library raises text-change from inside
    [dangerouslyPasteHTML(html)] on the editor [q]; the handlers registered
    with [quill.on] then run before the paste returns. *)
Variable paste_notifies : string → Q → bool.


End Bound.

End TwoWayBinding.

(** ** A plain editor to run the component on *)

Module PlainEditor.
Import JS QuillBlogEditor.

(** A small stand-in for the library, no part of the repository, on which
    the component is run for concrete inputs.  It keeps the HTML of its root
    as a string, the embeds inserted, the selection and the clipboard
    matchers; pasting replaces the root HTML by the HTML given, and every
    position inside the HTML has a leaf, all leaves having one parent. *)
Record plain := {
  root_innerHTML : string;
  embeds : list (Z * string);
  selection : option Z;
  matchers : list string;
}.

Definition constructed : plain :=
  {| root_innerHTML := "<p><br></p>"; embeds := []; selection := None;
     matchers := [] |}.

#[global] Instance plain_api : QuillAPI plain := {|
  create := λ _, constructed;
  innerHTML := root_innerHTML;
  getLeaf := λ q i,
    if bool_decide (0 ≤ i < Z.of_nat (String.length (root_innerHTML q)))%Z
    then Some {| parent := 0 |} else None;
  insertEmbed := λ i blot _ _ q,
    {| root_innerHTML := root_innerHTML q;
       embeds := embeds q ++ [(i, blot)];
       selection := selection q; matchers := matchers q |};
  setSelection := λ i _ q,
    {| root_innerHTML := root_innerHTML q; embeds := embeds q;
       selection := Some i; matchers := matchers q |};
  addMatcher := λ selector q,
    {| root_innerHTML := root_innerHTML q; embeds := embeds q;
       selection := selection q; matchers := matchers q ++ [selector] |};
  dangerouslyPasteHTML := λ html q,
    {| root_innerHTML := html; embeds := embeds q;
       selection := selection q; matchers := matchers q |};
|}.

(** The props of a component that is given [modelValue] only: every other
    prop at its default. *)
Definition mount_props (v : string) : props :=
  {| modelValue := v;
     theme := "snow";
     placeholder := "Write something...";
     readOnly := false;
     formats := None;
     toolbar := ToolbarName "full";
     options := {| modules := None; otherOptions := ∅ |} |}.

(** The plain editor with root HTML [html], after the component was mounted
    on it. *)
Definition showing (html : string) : plain :=
  {| root_innerHTML := html; embeds := []; selection := None;
     matchers := ["BR"] |}.

End PlainEditor.

(** ** The example image service, [playground/services/ImageService.ts] *)

Module ImageService.
Import JS.

(** The outcome of an [async] function. *)
Inductive promise (A : Type) :=
| Resolved (a : A)
| Rejected (reason : string).
Arguments Resolved {A} a.
Arguments Rejected {A} reason.

Definition is_rejected {A} (p : promise A) : bool :=
  match p with
  | Resolved _ => false
  | Rejected _ => true
  end.

Record File := { file_name : string; file_type : string; file_size : Z }.

(** The server behind [fetch]: reachable, answering an upload with the URL
    it stored the file under, or not reachable.  Both bodies below have their
    [fetch] calls commented out, so neither consults it. *)
Inductive network :=
| NetworkUp (stored_at : File → string)
| NetworkDown (reason : string).

Definition upload (net : network) (file : File) : promise string :=
  Resolved "https://picsum.photos/200/300".

Definition delete (net : network) (imageUrl : prim) : promise unit :=
  Resolved tt.

End ImageService.

(** ** The example image module, [playground/modules/ImageHandler.ts] *)

Module ImageHandler.
Import JS.

(** *** Deltas *)

(** [op.insert]: a string, or an embed object. *)
Inductive insert_data :=
| InsertText (text : string)
| InsertEmbed (embed : gmap string prim).

Record op := {
  insert : option insert_data;
  delete : option Z;
  retain : option Z;
}.

(** [delta.ops] may be missing. *)
Record delta := { ops : option (list op) }.

Definition insert_truthy (i : insert_data) : bool :=
  match i with
  | InsertText text => negb (String.eqb text EmptyString)
  | InsertEmbed _ => true
  end.

(** [op.insert.image] *)
Definition insert_image (i : insert_data) : prim :=
  match i with
  | InsertText _ => PUndefined
  | InsertEmbed embed => default PUndefined (embed !! "image")
  end.

(** The body of the [forEach] in [extractImageSources]. *)
Definition push_image (sources : list prim) (o : op) : list prim :=
  match insert o with
  | Some i =>
      if insert_truthy i && prim_truthy (insert_image i)
      then sources ++ [insert_image i]
      else sources
  | None => sources
  end.

Definition extractImageSources (d : delta) : list prim :=
  foldl push_image [] (default [] (ops d)).

(** *** The [text-change] listener of the constructor *)

Section Listener.
Context {Q : Type} (getContents : Q → delta).

(** The listener, as the list of [ImageService.delete] calls it makes. *)
Definition on_text_change (q : Q) (change oldDelta : delta)
    (src : QuillBlogEditor.source) : list prim :=
  let oldImages := extractImageSources oldDelta in
  let newImages := extractImageSources (getContents q) in
  let deleted := filter (λ url, url ∉ newImages) oldImages in
  deleted.

End Listener.

(** *** The editor's DOM *)

(** An element has its lower-case local name (what a type selector is
    matched against), its class list and its children. *)

#[warnings="-register-all"]
Inductive node :=
| Element (localName : string) (classList : list string)
    (children : list node)
| Text (data : string).

(** An element is referred to by the child indices leading to it. *)
Definition path := list nat.

Fixpoint node_at (p : path) (n : node) : option node :=
  match p with
  | [] => Some n
  | i :: p' =>
      match n with
      | Element _ _ kids => kids !! i ≫= node_at p'
      | Text _ => None
      end
  end.

(** Name and class list of the node at [p], without its children. *)
Inductive label :=
| LElement (localName : string) (classList : list string)
| LText (data : string).

Definition label_of (n : node) : label :=
  match n with
  | Element t cl _ => LElement t cl
  | Text d => LText d
  end.

Definition label_at (p : path) (n : node) : option label :=
  label_of <$> node_at p n.

Fixpoint update_at (p : path) (f : node → node) (n : node) : node :=
  match p with
  | [] => f n
  | i :: p' =>
      match n with
      | Element t cl kids => Element t cl (alter (update_at p' f) i kids)
      | Text _ => n
      end
  end.

(** The first of [kids], from index [i] on, in which [find] succeeds. *)
Fixpoint first_among (find : node → option path) (kids : list node) (i : nat)
  : option path :=
  match kids with
  | [] => None
  | k :: kids' =>
      match find k with
      | Some p => Some (i :: p)
      | None => first_among find kids' (S i)
      end
  end.

(** The first node in document order, [n] included, that [sel] matches. *)
Fixpoint first_match (sel : string → list string → bool) (n : node)
  : option path :=
  match n with
  | Text _ => None
  | Element t cl kids =>
      if sel t cl then Some []
      else first_among (first_match sel) kids 0
  end.

(** [el.querySelector(sel)]: the first match among the descendants. *)
Definition querySelector (sel : string → list string → bool) (el : node)
  : option path :=
  match el with
  | Text _ => None
  | Element _ _ kids => first_among (first_match sel) kids 0
  end.

(** The selector [img.image-selected]. *)
Definition img_image_selected (t : string) (cl : list string) : bool :=
  String.eqb t "img" && bool_decide ("image-selected" ∈ cl).

(** [classList.remove(...tokens)] and [classList.add(token)] *)
Definition classList_remove (tokens : list string) (cl : list string)
  : list string :=
  filter (λ c, c ∉ tokens) cl.

Definition classList_add (token : string) (cl : list string) : list string :=
  if bool_decide (token ∈ cl) then cl else cl ++ [token].

Definition on_classList (f : list string → list string) (n : node) : node :=
  match n with
  | Element t cl kids => Element t (f cl) kids
  | Text _ => n
  end.

(** *** [adjustImageSize] *)

Inductive size := small | medium | large.

Definition width_classes : list string := ["w-3/5"; "w-4/5"; "w-full"].

Definition size_class (s : size) : string :=
  match s with
  | small => "w-3/5"
  | medium => "w-4/5"
  | large => "w-full"
  end.

(** [root] is [this.quill.root]; the result is the root after the call. *)
Definition adjustImageSize (s : size) (root : option node) : option node :=
  match root with
  | None => None
  | Some editorEl =>
      match querySelector img_image_selected editorEl with
      | None => Some editorEl
      | Some selectedImage =>
          let removed :=
            update_at selectedImage
              (on_classList (classList_remove ["w-3/5"; "w-4/5"; "w-full"]))
              editorEl in
          Some match s with
               | small =>
                   update_at selectedImage
                     (on_classList (classList_add "w-3/5")) removed
               | medium =>
                   update_at selectedImage
                     (on_classList (classList_add "w-4/5")) removed
               | large =>
                   update_at selectedImage
                     (on_classList (classList_add "w-full")) removed
               end
      end
  end.

(** *** Reading a snapshot *)

(** The image an op contributes to [extractImageSources], if any. *)
Definition op_image (o : op) : option prim :=
  match insert o with
  | Some i =>
      if insert_truthy i && prim_truthy (insert_image i)
      then Some (insert_image i) else None
  | None => None
  end.

(** [d] has an op inserting an image embed whose value is the truthy
    [url]. *)
Definition references (d : delta) (url : prim) : Prop :=
  ∃ l o embed,
    ops d = Some l ∧ o ∈ l
    ∧ insert o = Some (InsertEmbed embed)
    ∧ embed !! "image" = Some url
    ∧ prim_truthy url = true.

(** How many [ImageService.delete] calls have [url] as their argument. *)
Definition delete_calls_for (url : prim) (deleted : list prim) : nat :=
  length (filter (λ u, u = url) deleted).

(** The image an op inserts: the value under [image] of the embed it
    inserts, where that value is truthy. *)
Definition image_value (o : op) : option prim :=
  match insert o with
  | Some (InsertEmbed embed) =>
      match embed !! "image" with
      | Some v => if prim_truthy v then Some v else None
      | None => None
      end
  | _ => None
  end.

(** The images of a snapshot: what its ops insert, in the order of the
    ops. *)
Definition snapshot_images (d : delta) : list prim :=
  omap image_value (default [] (ops d)).

(** How many ops of [d] insert the image [url]. *)
Definition occurrences (url : prim) (d : delta) : nat :=
  length (filter (λ o, image_value o = Some url) (default [] (ops d))).

(** *** Sample documents *)

Definition image_op (url : string) : op :=
  {| insert := Some (InsertEmbed (<["image" := PStr url]> ∅));
     delete := None; retain := None |}.

Definition text_op (text : string) : op :=
  {| insert := Some (InsertText text); delete := None; retain := None |}.

Definition delete_op (n : Z) : op :=
  {| insert := None; delete := Some n; retain := None |}.

(** Two images uploaded through the playground's service, which answers
    every upload with the same URL, and the document after both are
    removed. *)
Definition two_uploads : delta :=
  {| ops := Some [image_op "https://picsum.photos/200/300";
                  image_op "https://picsum.photos/200/300";
                  text_op "done"] |}.

Definition both_removed : delta := {| ops := Some [text_op "done"] |}.

Definition removal : delta := {| ops := Some [delete_op 2] |}.

End ImageHandler.

(** ** The playground, [playground/App.vue] *)

Module Playground.
Import JS QuillBlogEditor ImageHandler.

(** The modules object [App.vue] passes, with a [keyboard] entry added. *)
Definition playground_modules : gmap string value :=
  <["imageHandler" := VObj []]>
    (<["toolbar" :=
         VObj [("container", TOOLBAR_PRESETS_full);
               ("handlers", VObj [("image", VRef "customImageHandler")])]]>
      (<["keyboard" := VObj [("bindings", VObj [])]]> ∅)).

(** An editor root with two paragraphs; the image in the second one is
    selected and large. *)
Definition sample_root : node :=
  Element "div" ["ql-editor"]
    [ Element "p" [] [Text "Intro"; Element "img" ["w-4/5"] []];
      Element "p" []
        [ Element "img" ["image-selected"; "w-full"; "rounded"] [];
          Text "caption" ] ].

End Playground.

(** ** The click handlers of the image module,
       [playground/modules/ImageHandler.ts] *)

Module ImageHandlerClicks.
Import ImageHandler.

(** *** [querySelectorAll] *)

(** The matches [find] yields in each of [kids], from index [i] on, in
    document order. *)
Fixpoint all_among (find : node → list path) (kids : list node) (i : nat)
  : list path :=
  match kids with
  | [] => []
  | k :: kids' => ((λ p, i :: p) <$> find k) ++ all_among find kids' (S i)
  end.

(** The nodes in document order, [n] included, that [sel] matches. *)
Fixpoint all_matches (sel : string → list string → bool) (n : node)
  : list path :=
  match n with
  | Text _ => []
  | Element t cl kids =>
      (if sel t cl then [[]] else []) ++ all_among (all_matches sel) kids 0
  end.

(** [el.querySelectorAll(sel)]: the matching descendants. *)
Definition querySelectorAll (sel : string → list string → bool) (el : node)
  : list path :=
  match el with
  | Text _ => []
  | Element _ _ kids => all_among (all_matches sel) kids 0
  end.

(** [editorEl.querySelectorAll('img.image-selected').forEach(img =>
      img.classList.remove('image-selected'))] *)
Definition deselect_images (editorEl : node) : node :=
  foldl (λ root img,
           update_at img (on_classList (classList_remove ["image-selected"]))
             root)
    editorEl (querySelectorAll img_image_selected editorEl).

(** *** The context menu *)

(** The menu is a [div] that [openContextMenu] creates and appends to
    [document.body], holding one button per size.  An element is identified
    by the number of elements created before it.  The inline styles of the
    menu and its position, computed from the layout of the image, are left
    out. *)
Record menu := { menu_id : nat; buttons : list (string * size) }.

(** The module instance and the page: the editor root [this.quill.root],
    the field [this.contextMenuEl], the menus among the children of
    [document.body], and how many elements were created so far. *)
Record ui := {
  root : node;
  contextMenuEl : option menu;
  body : list menu;
  created : nat;
}.

Definition with_root (r : node) (u : ui) : ui :=
  {| root := r; contextMenuEl := contextMenuEl u; body := body u;
     created := created u |}.

(** [closeContextMenu]: [this.contextMenuEl.remove()] takes that element
    out of its parent. *)
Definition closeContextMenu (u : ui) : ui :=
  match contextMenuEl u with
  | Some m =>
      {| root := root u; contextMenuEl := None;
         body := filter (λ m', menu_id m' ≠ menu_id m) (body u);
         created := created u |}
  | None => u
  end.

(** [openContextMenu(img, e)]; the menu [div] is created first, then the
    three buttons. *)
Definition openContextMenu (img : path) (u : ui) : ui :=
  let u := closeContextMenu u in
  let menu :=
    {| menu_id := created u;
       buttons := [("Small", small); ("Medium", medium); ("Large", large)] |}
  in
  {| root := root u; contextMenuEl := Some menu; body := body u ++ [menu];
     created := created u + 4 |}.

(** *** The listeners *)

(** [target && target.tagName === 'IMG']: the tag name of an HTML element
    is its local name in upper case. *)
Definition is_img (target : path) (editorEl : node) : bool :=
  match node_at target editorEl with
  | Some (Element t _ _) => String.eqb t "img"
  | _ => false
  end.

(** The click listener on the editor root, for a click on the element at
    [target]; the flag tells whether [e.stopPropagation()] was called. *)
Definition editor_click (target : path) (u : ui) : ui * bool :=
  if is_img target (root u) then
    let deselected := deselect_images (root u) in
    let selected :=
      update_at target (on_classList (classList_add "image-selected"))
        deselected in
    (openContextMenu target (with_root selected u), true)
  else
    (closeContextMenu (with_root (deselect_images (root u)) u), false).

(** The click listener on [document]; [in_menu] is
    [this.contextMenuEl.contains(e.target)]. *)
Definition document_click (in_menu : bool) (u : ui) : ui :=
  match contextMenuEl u with
  | Some _ =>
      if in_menu then u
      else
        let u := closeContextMenu u in
        with_root (deselect_images (root u)) u
  | None => u
  end.

(** The root after [adjustImageSize], on an existing root. *)
Definition resized (s : size) (el : node) : node :=
  default el (adjustImageSize s (Some el)).

(** [btn.onclick] of the button for [s]; it stops the propagation. *)
Definition button_click (s : size) (u : ui) : ui :=
  closeContextMenu (with_root (resized s (root u)) u).

(** Where a click lands: on an element of the editor (the root for the
    empty path), on a button of the open menu, on the open menu beside its
    buttons, or anywhere else in the document. *)
Inductive click_target :=
| InEditor (target : path)
| OnButton (s : size)
| InMenu
| Elsewhere.

(** A click, with the listeners run in bubbling order.  The menu and its
    buttons can be clicked only while the menu is open. *)
Definition click (t : click_target) (u : ui) : ui :=
  match t with
  | InEditor target =>
      let '(u', stopped) := editor_click target u in
      if stopped then u' else document_click false u'
  | OnButton s =>
      match contextMenuEl u with
      | Some _ => button_click s u
      | None => u
      end
  | InMenu => document_click true u
  | Elsewhere => document_click false u
  end.

Definition clicks (ts : list click_target) (u : ui) : ui :=
  foldl (λ u t, click t u) u ts.

(** The state right after the module is constructed on the editor root
    [r]: no menu. *)
Definition constructed_on (r : node) : ui :=
  {| root := r; contextMenuEl := None; body := []; created := 0 |}.

(** *** For stating what the listeners do *)

Definition label_classes (f : list string → list string) (l : label)
  : label :=
  match l with
  | LElement t cl => LElement t (f cl)
  | LText d => LText d
  end.

(** The images that are selected. *)
Definition selected_images (editorEl : node) : list path :=
  querySelectorAll img_image_selected editorEl.

(** From [before] to [after] at most the class lists of [img] elements
    differ: no node is added or removed, and every text node and every other
    element keeps its label. *)
Definition only_image_classes_differ (before after : node) : Prop :=
  ∀ q,
    label_at q after = label_at q before
    ∨ ∃ cl cl',
        label_at q before = Some (LElement "img" cl)
        ∧ label_at q after = Some (LElement "img" cl').

(** The menus attached to the page are the one the module refers to, and
    while a menu is open exactly one image is selected. *)
Definition menu_consistent (u : ui) : Prop :=
  body u = option_list (contextMenuEl u)
  ∧ (is_Some (contextMenuEl u) → ∃ p, selected_images (root u) = [p]).

End ImageHandlerClicks.

(** ** Images that came from the example service *)

Module UploadedImages.
Import JS ImageService ImageHandler.


End UploadedImages.

(** ** Counting what a component emitted *)

Module ComponentTrace.
Import JS QuillBlogEditor.

Section Counting.
Context {Q : Type} `{!QuillAPI Q}.

Definition is_ready (e : emitted (Q:=Q)) : bool :=
  match e with Ready _ => true | _ => false end.

Definition is_update (e : emitted (Q:=Q)) : bool :=
  match e with UpdateModelValue _ => true | _ => false end.

Definition is_text_change (e : emitted (Q:=Q)) : bool :=
  match e with TextChange => true | _ => false end.

Definition is_focus_or_blur (e : emitted (Q:=Q)) : bool :=
  match e with Focus | Blur => true | _ => false end.

Definition is_text_change_event (e : event (Q:=Q)) : bool :=
  match e with EvTextChange => true | _ => false end.

Definition is_selection_event (e : event (Q:=Q)) : bool :=
  match e with EvSelectionChange _ => true | _ => false end.

Definition has_range (e : event (Q:=Q)) : bool :=
  match e with EvShiftEnter (Some _) _ => true | _ => false end.

Definition is_model_value_event (e : event (Q:=Q)) : bool :=
  match e with EvModelValue _ => true | _ => false end.

Definition is_insert_call (c : api_call) : bool :=
  match c with CallInsertEmbed _ _ _ _ => true | _ => false end.

Definition is_set_selection_call (c : api_call) : bool :=
  match c with CallSetSelection _ _ => true | _ => false end.

Definition is_paste_call (c : api_call) : bool :=
  match c with CallPasteHTML _ => true | _ => false end.

(** A notification from the library, or a change the editor makes to its
    own state. *)
Definition is_notification_or_edit (e : event (Q:=Q)) : bool :=
  match e with
  | EvTextChange | EvSelectionChange _ | EvEditor _ => true
  | _ => false
  end.

(** The library calls one event makes a mounted component make, [q] being
    its editor. *)
Definition calls_by (e : event (Q:=Q)) (q : Q) : list api_call :=
  match e with
  | EvModelValue newVal =>
      if String.eqb newVal (innerHTML q) then [] else [CallPasteHTML newVal]
  | EvShiftEnter (Some rg) _ =>
      [CallInsertEmbed (index rg) "br" (VBool true) USER]
      ++ (if needs_second_break (getLeaf q (index rg))
               (getLeaf q (index rg + 1))
          then [CallInsertEmbed (index rg) "br" (VBool true) USER]
          else [])
      ++ [CallSetSelection (index rg + 1) SILENT]
  | _ => []
  end.

(** What one event makes a mounted component emit, [q] being its editor. *)
Definition emitted_by (e : event (Q:=Q)) (q : Q) : list (emitted (Q:=Q)) :=
  match e with
  | EvTextChange => [UpdateModelValue (innerHTML q); TextChange]
  | EvSelectionChange None => [Blur]
  | EvSelectionChange (Some _) => [Focus]
  | _ => []
  end.

End Counting.

Definition count {A} (f : A → bool) (l : list A) : nat :=
  List.length (List.filter f l).

End ComponentTrace.

(** * Properties *)

Open Scope list_scope.

(** ** JavaScript helpers *)

Section JSFacts.
Import JS.

Lemma str_or_empty_id s : str_or_empty s = s.
Proof.
  unfold str_or_empty. destruct (String.eqb_spec s EmptyString); congruence.
Qed.

Lemma elem_of_keys own k : k ∈ keys own ↔ is_Some (own !! k).
Proof.
  unfold keys. rewrite list_elem_of_fmap. split.
  - intros [[k' v] [-> Hin]]. apply elem_of_map_to_list in Hin. eauto.
  - intros [v Hv]. exists (k, v). split; [done|]. by apply elem_of_map_to_list.
Qed.

Lemma get_own own k v : own !! k = Some v → get own k = v.
Proof. unfold get. by intros ->. Qed.

Lemma lookup_set own key v k :
  set own key v !! k =
    if decide (key = k ∧ key ≠ "__proto__") then Some v else own !! k.
Proof.
  unfold set. destruct (String.eqb_spec key "__proto__") as [->|Hne].
  - rewrite decide_False; [done|]. by intros [_ ?].
  - destruct (decide (key = k)) as [->|Hk].
    + rewrite decide_True by done. apply lookup_insert_eq.
    + rewrite decide_False; [by apply lookup_insert_ne|]. by intros [? _].
Qed.

Lemma has_toolbar own :
  has own "toolbar" = bool_decide (is_Some (own !! "toolbar")).
Proof. unfold has. by rewrite orb_false_r. Qed.

End JSFacts.

(** ** Module configuration *)

Section Configuration.
Import JS QuillBlogEditor Playground.

Lemma toolbar_config_array items :
  toolbar_config (ToolbarArray items) = VArr items.
Proof. reflexivity. Qed.

Lemma toolbar_config_full :
  toolbar_config (ToolbarName "full") = TOOLBAR_PRESETS_full.
Proof. reflexivity. Qed.

Lemma toolbar_config_basic :
  toolbar_config (ToolbarName "basic") = TOOLBAR_PRESETS_basic.
Proof. reflexivity. Qed.

(** A name that is neither a preset nor a property of [Object.prototype]
    gets the [full] preset. *)
Lemma toolbar_config_fallback name :
  name ≠ "full" → name ≠ "basic" → name ∉ object_prototype_names →
  toolbar_config (ToolbarName name) = TOOLBAR_PRESETS_full.
Proof.
  intros Hf Hb Hp. unfold toolbar_config, get at 1, TOOLBAR_PRESETS.
  rewrite !lookup_insert_ne, lookup_empty by done.
  unfold object_prototype_get. by rewrite bool_decide_eq_false_2.
Qed.

(** C8 (toolbar preset resolution), evaluated where it fails: the string
    [constructor] names no preset, yet the lookup in [TOOLBAR_PRESETS] finds
    the property of that name inherited from [Object.prototype], which is
    truthy, so the toolbar configuration is the [Object] function and not
    the [full] preset.  Arrays and the two preset names resolve as claimed. *)
Theorem toolbar_config_constructor :
  toolbar_config (ToolbarName "constructor") = VRef "Object"
  ∧ toolbar_config (ToolbarName "constructor") ≠ TOOLBAR_PRESETS_full
  ∧ "constructor" ≠ "full" ∧ "constructor" ≠ "basic"
  ∧ (∀ items, toolbar_config (ToolbarArray items) = VArr items)
  ∧ toolbar_config (ToolbarName "full") = TOOLBAR_PRESETS_full
  ∧ toolbar_config (ToolbarName "basic") = TOOLBAR_PRESETS_basic.
Proof.
  split_and!; try done.
Qed.

Lemma foldl_merge_step_lookup m ks merged k :
  foldl (merge_step m) merged ks !! k =
    if decide (k ∈ ks ∧ k ≠ "toolbar" ∧ k ≠ "__proto__")
    then Some (get m k) else merged !! k.
Proof.
  revert merged. induction ks as [|a ks IH]; intros merged; cbn [foldl].
  - rewrite decide_False; [done|]. intros [Hin _]. by apply elem_of_nil in Hin.
  - rewrite IH. destruct (decide (k ∈ ks ∧ k ≠ "toolbar" ∧ k ≠ "__proto__"))
      as [(Hin & Ht & Hp)|Hn].
    + rewrite decide_True; [done|]. split_and!; [by right|done..].
    + unfold merge_step. destruct (String.eqb_spec a "toolbar") as [->|Hat].
      * rewrite decide_False; [done|]. intros (Hin & Ht & Hp).
        apply elem_of_cons in Hin as [->|Hin]; naive_solver.
      * rewrite lookup_set. destruct (decide (a = k ∧ a ≠ "__proto__"))
          as [[-> Hp]|Hn'].
        -- rewrite decide_True; [done|]. split_and!; [by left|done..].
        -- rewrite decide_False; [done|]. intros (Hin & Ht & Hp).
           apply elem_of_cons in Hin as [->|Hin]; naive_solver.
Qed.

(** The own properties of [mergedModules]: the caller's entries laid over
    the defaults, except that no own [__proto__] is ever created. *)
Lemma mergedModules_lookup t m k :
  mergedModules t (Some m) !! k =
    if decide (k = "__proto__") then None else (m ∪ defaultModules t) !! k.
Proof.
  unfold mergedModules. rewrite has_toolbar.
  assert (Hfold : ∀ k,
    foldl (merge_step m) (defaultModules t) (keys m) !! k =
      if decide (is_Some (m !! k) ∧ k ≠ "toolbar" ∧ k ≠ "__proto__")
      then m !! k else defaultModules t !! k).
  { intros k'. rewrite foldl_merge_step_lookup.
    destruct (decide (k' ∈ keys m ∧ _)) as [(Hin & Ht & Hp)|Hn].
    - apply elem_of_keys in Hin as Hs. rewrite decide_True by done.
      destruct Hs as [v Hv]. by rewrite (get_own _ _ _ Hv).
    - rewrite decide_False; [done|]. rewrite <- elem_of_keys. done. }
  assert (Hd : defaultModules t !! "__proto__" = None) by done.
  case_bool_decide as Htb.
  - rewrite lookup_set, Hfold. destruct Htb as [v Hv].
    rewrite (get_own _ _ _ Hv).
    destruct (decide ("toolbar" = k ∧ _)) as [[<- _]|Hn].
    + rewrite decide_False by done.
      by rewrite (lookup_union_Some_l _ _ _ _ Hv).
    + destruct (decide (is_Some (m !! k) ∧ _)) as [([w Hw] & Ht & Hp)|Hn'].
      * rewrite decide_False by done.
        by rewrite (lookup_union_Some_l _ _ _ _ Hw).
      * destruct (decide (k = "__proto__")) as [->|Hp]; [done|].
        rewrite lookup_union_r; [done|].
        destruct (m !! k) eqn:E; [|done]. exfalso. apply Hn'.
        split_and!; [eauto| |done]. intros ->. naive_solver.
  - rewrite Hfold.
    destruct (decide (is_Some (m !! k) ∧ _)) as [([w Hw] & Ht & Hp)|Hn'].
    + rewrite decide_False by done.
      by rewrite (lookup_union_Some_l _ _ _ _ Hw).
    + destruct (decide (k = "__proto__")) as [->|Hp]; [done|].
      rewrite lookup_union_r; [done|].
      destruct (m !! k) eqn:E; [|done]. exfalso. apply Hn'.
      split_and!; [eauto| |done]. intros ->. apply Htb. eauto.
Qed.

(** C2 (override-by-key merge of the module configuration): an entry of the
    caller's modules object replaces the default entry of the same key, for
    [keyboard] and for [toolbar], whose value is taken over whole; the
    caller's other entries are added (an own [__proto__] apart, which
    assignment cannot create), keys the caller leaves out keep their
    defaults, and without caller modules the defaults stand. *)
Theorem caller_modules_override t m :
  (∀ k v, m !! k = Some v → is_Some (defaultModules t !! k) →
     mergedModules t (Some m) !! k = Some v)
  ∧ (∀ v, m !! "keyboard" = Some v →
       mergedModules t (Some m) !! "keyboard" = Some v)
  ∧ (∀ v, m !! "toolbar" = Some v →
       mergedModules t (Some m) !! "toolbar" = Some v)
  ∧ (∀ k v, m !! k = Some v → k ≠ "__proto__" →
       mergedModules t (Some m) !! k = Some v)
  ∧ (∀ k, m !! k = None →
       mergedModules t (Some m) !! k = defaultModules t !! k)
  ∧ mergedModules t None = defaultModules t.
Proof.
  assert (Hov : ∀ k v, m !! k = Some v → k ≠ "__proto__" →
    mergedModules t (Some m) !! k = Some v).
  { intros k v Hv Hp. rewrite mergedModules_lookup, decide_False by done.
    by apply lookup_union_Some_l. }
  split_and!; [|by eauto|by eauto|done| |done].
  - intros k v Hv Hd. apply Hov; [done|]. intros ->.
    by destruct Hd as [d Hd].
  - intros k Hk. rewrite mergedModules_lookup.
    destruct (decide (k = "__proto__")) as [->|Hp]; [done|].
    by rewrite lookup_union_r.
Qed.

(** On the playground's modules: the caller's toolbar and keyboard entries
    take the place of the defaults, and [imageHandler] is added. *)
Lemma caller_modules_override_witness :
  mergedModules (ToolbarName "basic") (Some playground_modules) !! "toolbar"
    = Some (VObj [("container", TOOLBAR_PRESETS_full);
                  ("handlers", VObj [("image", VRef "customImageHandler")])])
  ∧ mergedModules (ToolbarName "basic") (Some playground_modules) !! "keyboard"
    = Some (VObj [("bindings", VObj [])])
  ∧ mergedModules (ToolbarName "basic") (Some playground_modules)
      !! "imageHandler" = Some (VObj []).
Proof.
  pose proof (caller_modules_override (ToolbarName "basic") playground_modules)
    as (Hdef & Hkb & Htb & Hany & _).
  split_and!.
  - apply Hdef; [reflexivity | eexists; reflexivity].
  - apply Hkb. reflexivity.
  - apply Hany; [reflexivity | discriminate].
Defined.

End Configuration.

(** ** The component and the editor *)

Section ComponentFacts.
Import JS QuillBlogEditor TwoWayBinding.
Context {Q : Type} `{!QuillAPI Q}.

Lemma run_snoc es e (c : component (Q:=Q)) :
  run (es ++ [e]) c = step e (run es c).
Proof. unfold run. by rewrite foldl_app. Qed.

(** Mounting with a container creates the editor, pastes the initial
    content, registers both handlers and emits [ready]. *)
Lemma mount_container p :
  let q := dangerouslyPasteHTML (modelValue p)
             (addMatcher "BR" (create (finalOptions p))) in
  mount p true =
    {| quill := Some q;
       listeners := ["text-change"; "selection-change"];
       calls := [CallAddMatcher "BR"; CallPasteHTML (modelValue p)];
       emits := [Ready q] |}.
Proof.
  unfold mount, exec, onMounted. cbn. by rewrite str_or_empty_id.
Qed.

(** Without a container nothing happens. *)
Lemma mount_no_container p : mount p false = initial.
Proof. reflexivity. Qed.

Lemma step_text_change c q :
  quill c = Some q → listening "text-change" c = true →
  step EvTextChange c =
    {| quill := Some q; listeners := listeners c; calls := calls c;
       emits := (emits c ++ [UpdateModelValue (innerHTML q)]) ++ [TextChange] |}.
Proof.
  intros Hq Ht. cbn. rewrite Ht.
  unfold exec, text_change_handler, bind, read_quill. rewrite Hq. cbn.
  by rewrite Hq.
Qed.

Lemma step_selection_change c r :
  listening "selection-change" c = true →
  step (EvSelectionChange r) c =
    {| quill := quill c; listeners := listeners c; calls := calls c;
       emits := emits c ++ [if r is None then Blur else Focus] |}.
Proof. intros Hs. cbn. rewrite Hs. by destruct r. Qed.

Lemma step_model_value_differs c q newVal :
  quill c = Some q → newVal ≠ innerHTML q →
  step (EvModelValue newVal) c =
    {| quill := Some (dangerouslyPasteHTML newVal q);
       listeners := listeners c;
       calls := calls c ++ [CallPasteHTML newVal];
       emits := emits c |}.
Proof.
  intros Hq Hne. cbn. unfold exec, watch_modelValue, bind, read_quill.
  rewrite Hq. destruct (String.eqb_spec newVal (innerHTML q)); [done|].
  cbn. by rewrite Hq, str_or_empty_id.
Qed.

Lemma step_model_value_equal c q newVal :
  quill c = Some q → newVal = innerHTML q →
  step (EvModelValue newVal) c = c.
Proof.
  intros Hq ->. cbn. unfold exec, watch_modelValue, bind, read_quill.
  rewrite Hq. by rewrite String.eqb_refl.
Qed.

(** Before there is an editor the watcher returns at once. *)
Lemma step_model_value_no_editor c newVal :
  quill c = None → step (EvModelValue newVal) c = c.
Proof.
  intros Hq. cbn. unfold exec, watch_modelValue, bind, read_quill.
  by rewrite Hq.
Qed.

(** The key handler keeps the registrations, and an editor stays one. *)
Lemma softBreakHandler_keeps r context c :
  listeners (exec (softBreakHandler r context) c) = listeners c
  ∧ emits (exec (softBreakHandler r context) c) = emits c
  ∧ (is_Some (quill c) →
       is_Some (quill (exec (softBreakHandler r context) c))).
Proof.
  unfold exec, softBreakHandler, bind, read_quill.
  destruct (quill c) as [q|] eqn:Hq; cbn.
  - destruct r as [rg|]; cbn; [|by rewrite Hq; eauto].
    destruct (needs_second_break _ _); cbn; rewrite Hq; cbn; eauto.
  - split_and!; [done..|]. by intros [? ?].
Qed.

(** Once mounted, the component keeps an editor and both handlers stay
    registered. *)
Lemma step_mounted e c : mounted c → mounted (step e c).
Proof.
  intros ([q Hq] & Ht & Hs). destruct e as [newVal| |r|r context|q'].
  - destruct (decide (newVal = innerHTML q)) as [Heq|Hne].
    + rewrite (step_model_value_equal _ _ _ Hq Heq). by split_and!; eauto.
    + rewrite (step_model_value_differs _ _ _ Hq Hne). by split_and!; eauto.
  - rewrite (step_text_change _ _ Hq Ht). by split_and!; eauto.
  - rewrite (step_selection_change _ _ Hs). split_and!; [|done..].
    cbn. eauto.
  - destruct (softBreakHandler_keeps r context c) as (Hl & _ & Hsome).
    unfold mounted, listening, step. rewrite Hl. split_and!; [|done..].
    apply Hsome. eauto.
  - unfold step. rewrite Hq. by split_and!; eauto.
Qed.

Lemma run_mounted p es : mounted (run es (mount p true)).
Proof.
  induction es as [|e es IH] using rev_ind.
  - rewrite mount_container. split_and!; [by eexists|done..].
  - rewrite run_snoc. by apply step_mounted.
Qed.

(** C3 (the [modelValue] watcher): in every state the mounted component can
    reach there is an editor, and for a new value that differs from the
    editor's current HTML the watcher makes exactly one content-replacement
    call, with that value, and nothing else; for a new value equal to the
    editor's HTML it leaves the component and the editor as they are. *)
Theorem watch_pastes_unless_equal p es newVal :
  let c := run es (mount p true) in
  ∃ q, quill c = Some q
    ∧ (newVal ≠ innerHTML q →
         calls (step (EvModelValue newVal) c)
           = calls c ++ [CallPasteHTML newVal]
         ∧ quill (step (EvModelValue newVal) c)
           = Some (dangerouslyPasteHTML newVal q)
         ∧ emits (step (EvModelValue newVal) c) = emits c)
    ∧ (newVal = innerHTML q → step (EvModelValue newVal) c = c).
Proof.
  cbv zeta. destruct (run_mounted p es) as ([q Hq] & _ & _).
  exists q. split; [done|]. split.
  - intros Hne. by rewrite (step_model_value_differs _ _ _ Hq Hne).
  - intros Heq. by apply (step_model_value_equal _ q).
Qed.

(** C4 (text-change notifications): in every state the mounted component can
    reach, a text-change notification makes it emit [update:modelValue]
    with the editor root's current HTML and then [text-change], and nothing
    else. *)
Theorem text_change_emits p es :
  let c := run es (mount p true) in
  ∃ q, quill c = Some q
    ∧ emits (step EvTextChange c)
        = emits c ++ [UpdateModelValue (innerHTML q); TextChange]
    ∧ calls (step EvTextChange c) = calls c
    ∧ quill (step EvTextChange c) = Some q.
Proof.
  cbv zeta. destruct (run_mounted p es) as ([q Hq] & Ht & _).
  exists q. rewrite (step_text_change _ _ Hq Ht). cbn.
  by rewrite <- app_assoc.
Qed.

(** C6 (focus, blur and ready): in every state the mounted component can
    reach, a selection-change notification makes it emit exactly one event,
    [blur] if the range is null and [focus] otherwise, so [blur] is emitted
    if and only if the range is null; and mounting ends by emitting [ready]
    with the editor instance the component holds. *)
Theorem selection_change_emits p es r :
  let c := run es (mount p true) in
  emits (step (EvSelectionChange r) c)
    = emits c ++ [if r is None then Blur else Focus]
  ∧ (last (emits (step (EvSelectionChange r) c)) = Some Blur ↔ r = None)
  ∧ (last (emits (step (EvSelectionChange r) c)) = Some Focus ↔ r ≠ None)
  ∧ ∃ q, quill (mount p true) = Some q ∧ emits (mount p true) = [Ready q].
Proof.
  cbv zeta. destruct (run_mounted p es) as (_ & _ & Hs).
  rewrite (step_selection_change _ r Hs). cbn. rewrite last_snoc.
  split_and!; [done| | |].
  - destruct r; split; congruence.
  - destruct r; split; congruence.
  - eauto.
Qed.

Lemma last_update_snoc_update c q ls cs :
  last_update {| quill := Some q; listeners := ls; calls := cs;
                 emits := (emits c ++ [UpdateModelValue (innerHTML q)])
                            ++ [TextChange] |}
    = Some (innerHTML q).
Proof.
  unfold last_update. cbn. rewrite !omap_app. cbn.
  rewrite app_nil_r. apply last_snoc.
Qed.


(** C9 (the soft-break key handler): it returns [false] whatever the
    component, range and context; with a null range, or without an editor,
    it leaves the component as it is (no library call at all); and with
    both it inserts the break once or twice at the range's index and then
    sets the selection. *)
Theorem softBreakHandler_returns_false c r context :
  (softBreakHandler r context c).1 = false
  ∧ softBreakHandler None context c = (false, c)
  ∧ (∀ ls cs ems,
       softBreakHandler r context
         {| quill := None; listeners := ls; calls := cs; emits := ems |}
       = (false,
          {| quill := None; listeners := ls; calls := cs; emits := ems |}))
  ∧ (∀ q rg ls cs ems,
       calls (exec (softBreakHandler (Some rg) context)
         {| quill := Some q; listeners := ls; calls := cs; emits := ems |})
       = cs ++ [CallInsertEmbed (index rg) "br" (VBool true) USER]
            ++ (if needs_second_break (getLeaf q (index rg))
                     (getLeaf q (index rg + 1))
                then [CallInsertEmbed (index rg) "br" (VBool true) USER]
                else [])
            ++ [CallSetSelection (index rg + 1) SILENT]).
Proof.
  split_and!.
  - unfold softBreakHandler, bind, read_quill.
    destruct (quill c) as [q|]; [|done]. destruct r as [rg|]; [|done].
    cbn. by destruct (needs_second_break _ _).
  - unfold softBreakHandler, bind, read_quill.
    destruct c as [[q|] ls cs ems]; done.
  - intros ls cs ems. by destruct r.
  - intros q rg ls cs ems. unfold exec, softBreakHandler, bind, read_quill.
    cbn. destruct (needs_second_break _ _); cbn; by rewrite <- !app_assoc.
Qed.

End ComponentFacts.

(** ** The component over the plain editor *)

Section PlainEditorFacts.
Import JS QuillBlogEditor TwoWayBinding PlainEditor.

(** A new value that differs from the root HTML is pasted. *)
Lemma watch_pastes_unless_equal_witness :
  calls (step (EvModelValue "<p>Updated</p>")
           (run [] (mount (mount_props "<p>Initial</p>") true)))
  = calls (run [] (mount (mount_props "<p>Initial</p>") true))
      ++ [CallPasteHTML "<p>Updated</p>"].
Proof.
  destruct (watch_pastes_unless_equal (mount_props "<p>Initial</p>") []
              "<p>Updated</p>") as (q & Hq & Hdiffers & _).
  apply Hdiffers. vm_compute in Hq. injection Hq as <-.
  vm_compute. discriminate.
Defined.


(** The editor changes its content and notifies: the component emits the
    new root HTML. *)
Example plain_text_change :
  emits (run [EvEditor (showing "<p>Changed</p>"); EvTextChange]
           (mount (mount_props "<p>Initial</p>") true))
  = [Ready (showing "<p>Initial</p>"); UpdateModelValue "<p>Changed</p>";
     TextChange].
Proof. vm_compute. reflexivity. Qed.

(** A prop change to the HTML the editor shows causes no call. *)
Example plain_same_value :
  calls (run [EvModelValue "<p>Same</p>"]
           (mount (mount_props "<p>Same</p>") true))
  = calls (mount (mount_props "<p>Same</p>") true).
Proof. vm_compute. reflexivity. Qed.

(** Shift+Enter inside the content, where both leaves have one parent: one
    break is inserted and the selection moves behind it; at the end of the
    content, where there is no next leaf, two breaks are inserted. *)
Example plain_soft_break :
  calls (run [EvShiftEnter (Some {| index := 4; length := 0 |}) VUndefined;
              EvShiftEnter (Some {| index := 13; length := 0 |}) VUndefined]
           (mount (mount_props "<p>Initial</p>") true))
  = [CallAddMatcher "BR"; CallPasteHTML "<p>Initial</p>";
     CallInsertEmbed 4 "br" (VBool true) USER; CallSetSelection 5 SILENT;
     CallInsertEmbed 13 "br" (VBool true) USER;
     CallInsertEmbed 13 "br" (VBool true) USER; CallSetSelection 14 SILENT].
Proof. vm_compute. reflexivity. Qed.

End PlainEditorFacts.

(** ** The image service *)

Section ImageServiceFacts.
Import JS ImageService.

(** C7, as the code has it (the example image service): both functions are
    stubs that make no request, whatever the state of the network; [upload]
    always resolves to the one sample URL, whatever the file, [delete]
    always resolves with no value, and neither is ever rejected. *)
Theorem image_service_always_resolves net file imageUrl :
  upload net file = Resolved "https://picsum.photos/200/300"
  ∧ delete net imageUrl = Resolved tt
  ∧ is_rejected (upload net file) = false
  ∧ is_rejected (delete net imageUrl) = false.
Proof. by split_and!. Qed.

(** C7, as the claim states it, fails: with the network down an upload is
    not rejected, and with a server that stores the file under a URL of its
    own the upload does not resolve to that URL. *)
Lemma upload_ignores_network :
  let photo := {| file_name := "photo.png"; file_type := "image/png";
                  file_size := 2048 |} in
  is_rejected (upload (NetworkDown "offline") photo) = false
  ∧ upload (NetworkUp (λ f, "/uploads/" ++ file_name f)%string) photo
      ≠ Resolved "/uploads/photo.png".
Proof. split; [reflexivity | discriminate]. Qed.

End ImageServiceFacts.

(** ** Removed images *)

Section RemovedImages.
Import JS ImageHandler.

Lemma foldl_push_image acc l :
  foldl push_image acc l = acc ++ omap op_image l.
Proof.
  revert acc. induction l as [|o l IH]; intros acc; cbn [foldl omap].
  - by rewrite app_nil_r.
  - rewrite IH. unfold push_image, op_image. cbn.
    destruct (insert o) as [i|]; [|done].
    destruct (insert_truthy i && prim_truthy (insert_image i)); [|done].
    by rewrite <- app_assoc.
Qed.

Lemma extractImageSources_omap d :
  extractImageSources d = omap op_image (default [] (ops d)).
Proof. unfold extractImageSources. by rewrite foldl_push_image. Qed.

(** What [extractImageSources] returns are the truthy image values of the
    snapshot's embeds. *)
Lemma elem_of_extractImageSources d url :
  url ∈ extractImageSources d ↔ references d url.
Proof.
  rewrite extractImageSources_omap, list_elem_of_omap. unfold references.
  split.
  - intros (o & Hin & Ho). unfold op_image in Ho.
    destruct (ops d) as [l|] eqn:Hl; cbn in Hin; [|by apply elem_of_nil in Hin].
    destruct (insert o) as [[text|embed]|] eqn:Hi; cbn in Ho; try done.
    + by rewrite andb_false_r in Ho.
    + destruct (prim_truthy _) eqn:Ht; [|done].
      injection Ho as <-. exists l, o, embed. split_and!; try done.
      destruct (embed !! "image") as [v|] eqn:Hv; [done|]. by cbn in Ht.
  - intros (l & o & embed & Hl & Hin & Hi & Hv & Ht).
    exists o. rewrite Hl. split; [done|]. unfold op_image.
    rewrite Hi. cbn. rewrite Hv. cbn. by rewrite Ht.
Qed.

Lemma length_filter_eq_filter (P : prim → Prop) `{!∀ x, Decision (P x)}
    url (l : list prim) :
  length (filter (λ u, u = url) (filter P l)) =
    if decide (P url) then length (filter (λ u, u = url) l) else 0.
Proof.
  induction l as [|x l IH]; [by destruct (decide (P url))|].
  rewrite (filter_cons P x l). destruct (decide (P x)) as [Hx|Hx].
  - rewrite !filter_cons. destruct (decide (x = url)) as [->|Hne].
    + cbn [length]. rewrite IH. by rewrite !decide_True.
    + by rewrite IH.
  - rewrite IH, (filter_cons _ x l). destruct (decide (x = url)) as [->|Hne].
    + by rewrite !decide_False.
    + done.
Qed.

Lemma op_image_value o : op_image o = image_value o.
Proof.
  unfold op_image, image_value.
  destruct (insert o) as [[text|embed]|]; cbn; [|destruct (embed !! "image")|];
    try done.
  by rewrite andb_false_r.
Qed.

(** What [extractImageSources] returns is what the snapshot's ops insert as
    images, in the order of the ops. *)
Lemma extractImageSources_snapshot_images d :
  extractImageSources d = snapshot_images d.
Proof.
  rewrite extractImageSources_omap. unfold snapshot_images.
  induction (default [] (ops d)) as [|o l IH]; [done|].
  cbn. by rewrite op_image_value, IH.
Qed.

Lemma occurrences_snapshot_images url d :
  occurrences url d = length (filter (λ u, u = url) (snapshot_images d)).
Proof.
  unfold occurrences, snapshot_images.
  induction (default [] (ops d)) as [|o l IH]; [done|].
  rewrite filter_cons. cbn [omap list_omap].
  destruct (image_value o) as [v|] eqn:Hv.
  - rewrite filter_cons. destruct (decide (v = url)) as [->|Hne].
    + rewrite decide_True by done. cbn. by rewrite IH.
    + rewrite decide_False by congruence. done.
  - rewrite decide_False by done. done.
Qed.

Section Listener.
Context {Q : Type} (getContents : Q → delta).

(** C1, as the code has it (deleting removed images): the listener calls
    [ImageService.delete] with exactly the image URLs that the previous
    snapshot references and the current one does not, never with a URL the
    current snapshot still references, once for every op of the previous
    snapshot that inserts such a URL, and in the order of those ops: the
    calls are the images the previous snapshot's ops insert, in the order
    of the ops, without those the current snapshot's ops insert. *)
Theorem deletes_removed_images (q : Q) change oldDelta src url :
  let deleted := on_text_change getContents q change oldDelta src in
  (url ∈ deleted ↔
     references oldDelta url ∧ ¬ references (getContents q) url)
  ∧ (references (getContents q) url → delete_calls_for url deleted = 0)
  ∧ (¬ references (getContents q) url →
       delete_calls_for url deleted = occurrences url oldDelta)
  ∧ deleted
      = filter (λ v, v ∉ snapshot_images (getContents q))
          (snapshot_images oldDelta).
Proof.
  cbv zeta. unfold on_text_change, delete_calls_for.
  rewrite length_filter_eq_filter, occurrences_snapshot_images.
  rewrite <- !extractImageSources_snapshot_images. split_and!.
  - rewrite list_elem_of_filter, !elem_of_extractImageSources. tauto.
  - intros Hnew. rewrite decide_False; [done|].
    intros Hn. apply Hn. by apply elem_of_extractImageSources.
  - intros Hnew. rewrite decide_True; [done|].
    by rewrite elem_of_extractImageSources.
  - done.
Qed.

End Listener.

(** C1, as the claim states it, fails where a URL occurs more than once:
    with two images of the same URL in the previous snapshot and none in
    the current one, the listener calls [ImageService.delete] twice with
    that URL, not once. *)
Lemma same_url_deleted_twice :
  on_text_change (λ d : delta, d) both_removed removal two_uploads
      QuillBlogEditor.USER
    = [PStr "https://picsum.photos/200/300";
       PStr "https://picsum.photos/200/300"]
  ∧ delete_calls_for (PStr "https://picsum.photos/200/300")
      (on_text_change (λ d : delta, d) both_removed removal two_uploads
         QuillBlogEditor.USER) = 2.
Proof. split; vm_compute; reflexivity. Qed.

(** On the two uploads: as many delete calls as ops insert the URL. *)
Lemma deletes_removed_images_witness :
  delete_calls_for (PStr "https://picsum.photos/200/300")
    (on_text_change (λ d : delta, d) both_removed removal two_uploads
       QuillBlogEditor.USER)
  = occurrences (PStr "https://picsum.photos/200/300") two_uploads.
Proof.
  apply (deletes_removed_images (λ d : delta, d) both_removed removal
           two_uploads QuillBlogEditor.USER).
  intros Href. apply elem_of_extractImageSources in Href.
  assert (Hnone : extractImageSources both_removed = []) by reflexivity.
  rewrite Hnone in Href. by apply elem_of_nil in Href.
Defined.

End RemovedImages.

(** ** Resizing the selected image *)

Section DOMFacts.
Import ImageHandler Playground.

Lemma node_children_ind (P : node → Prop) :
  (∀ d, P (Text d)) →
  (∀ t cl kids, Forall P kids → P (Element t cl kids)) →
  ∀ n, P n.
Proof.
  intros HText HElement. fix IH 1. intros [t cl kids|d].
  - apply HElement. induction kids as [|k kids IHkids]; constructor.
    + apply IH.
    + apply IHkids.
  - apply HText.
Qed.

Lemma node_at_update_at p f n :
  node_at p (update_at p f n) = f <$> node_at p n.
Proof.
  revert n. induction p as [|i p IH]; intros n; [done|].
  destruct n as [t cl kids|d]; [|done]. cbn.
  rewrite list_lookup_alter_eq. destruct (kids !! i) as [k|]; [|done].
  cbn. apply IH.
Qed.

(** Changing the class list at [p] leaves the label at every other path. *)
Lemma label_at_update_other p q g n :
  q ≠ p → label_at q (update_at p (on_classList g) n) = label_at q n.
Proof.
  unfold label_at. revert q n. induction p as [|i p IH]; intros q n Hne.
  - destruct q as [|j q]; [done|]. by destruct n.
  - destruct n as [t cl kids|d]; [|done].
    destruct q as [|j q]; [done|]. cbn.
    destruct (decide (i = j)) as [->|Hij].
    + rewrite list_lookup_alter_eq. destruct (kids !! j) as [k|]; [|done].
      cbn. apply IH. congruence.
    + by rewrite list_lookup_alter_ne.
Qed.

Lemma first_among_Some find kids i p :
  first_among find kids i = Some p →
  ∃ j k p', p = (i + j) :: p' ∧ kids !! j = Some k ∧ find k = Some p'.
Proof.
  revert i. induction kids as [|k kids IH]; intros i; cbn; [done|].
  destruct (find k) as [p'|] eqn:Hk.
  - intros [= <-]. exists 0, k, p'. by rewrite Nat.add_0_r.
  - intros (j & k' & p' & -> & Hj & Hk')%IH.
    exists (S j), k', p'. split_and!; [|done..]. f_equal. lia.
Qed.

Lemma first_among_None find kids i :
  first_among find kids i = None → Forall (λ k, find k = None) kids.
Proof.
  revert i. induction kids as [|k kids IH]; intros i; cbn; [by constructor|].
  destruct (find k) as [p'|] eqn:Hk; [done|].
  intros Hrest. constructor; [done|]. by apply (IH (S i)).
Qed.

(** A path [first_match] returns leads to an element the selector
    matches. *)
Lemma first_match_Some sel n :
  ∀ p, first_match sel n = Some p →
  ∃ t cl kids, node_at p n = Some (Element t cl kids) ∧ sel t cl = true.
Proof.
  induction n as [d|t cl kids IH] using node_children_ind; intros p; [done|].
  cbn. destruct (sel t cl) eqn:Hsel.
  - intros [= <-]. by exists t, cl, kids.
  - intros (j & k & p' & -> & Hj & Hk)%first_among_Some.
    rewrite Forall_lookup in IH.
    destruct (IH j k Hj p' Hk) as (t' & cl' & kids' & Hat & Hs).
    exists t', cl', kids'. split; [|done]. cbn. by rewrite Hj.
Qed.

(** Where [first_match] finds nothing, the selector matches no element. *)
Lemma first_match_None sel n :
  first_match sel n = None →
  ∀ p t cl kids, node_at p n = Some (Element t cl kids) → sel t cl = false.
Proof.
  induction n as [d|t cl kids IH] using node_children_ind.
  - intros _ [|i p] t cl kids; done.
  - cbn. destruct (sel t cl) eqn:Hsel; [done|].
    intros Hkids%first_among_None [|i p] t' cl' kids'.
    + by intros [= <- <- <-].
    + cbn. destruct (kids !! i) as [k|] eqn:Hi; [|done]. cbn.
      rewrite Forall_lookup in IH. rewrite Forall_lookup in Hkids.
      by apply (IH i k Hi (Hkids i k Hi)).
Qed.

Lemma querySelector_Some sel el p :
  querySelector sel el = Some p →
  p ≠ []
  ∧ ∃ t cl kids, node_at p el = Some (Element t cl kids) ∧ sel t cl = true.
Proof.
  destruct el as [t cl kids|d]; [|done]. cbn.
  intros (j & k & p' & -> & Hj & Hk)%first_among_Some. split; [done|].
  destruct (first_match_Some sel k p' Hk) as (t' & cl' & kids' & Hat & Hs).
  exists t', cl', kids'. split; [|done]. cbn. by rewrite Hj.
Qed.

Lemma querySelector_None sel el :
  querySelector sel el = None →
  ∀ p t cl kids, p ≠ [] →
    node_at p el = Some (Element t cl kids) → sel t cl = false.
Proof.
  destruct el as [t cl kids|d].
  - cbn. intros Hkids%first_among_None [|i p] t' cl' kids' Hp; [done|].
    cbn. destruct (kids !! i) as [k|] eqn:Hi; [|done]. cbn.
    rewrite Forall_lookup in Hkids.
    by apply (first_match_None sel k (Hkids i k Hi)).
  - intros _ [|i p] t cl kids Hp; done.
Qed.

Lemma elem_of_width_classes w :
  w ∈ width_classes ↔ w = "w-3/5" ∨ w = "w-4/5" ∨ w = "w-full".
Proof. unfold width_classes. rewrite !elem_of_cons, elem_of_nil. tauto. Qed.

Lemma size_class_width s : size_class s ∈ width_classes.
Proof. apply elem_of_width_classes. destruct s; cbn; tauto. Qed.

(** After the three width classes are removed, adding one appends it. *)
Lemma classList_add_after_remove w cl :
  w ∈ width_classes →
  classList_add w (classList_remove width_classes cl)
    = classList_remove width_classes cl ++ [w].
Proof.
  intros Hw. unfold classList_add, classList_remove.
  rewrite bool_decide_eq_false_2; [done|].
  rewrite list_elem_of_filter. tauto.
Qed.

Lemma adjustImageSize_selected s el p :
  querySelector img_image_selected el = Some p →
  adjustImageSize s (Some el) =
    Some (update_at p (on_classList (classList_add (size_class s)))
            (update_at p (on_classList (classList_remove width_classes)) el)).
Proof. intros Hp. unfold adjustImageSize. rewrite Hp. by destruct s. Qed.

(** C10 (resizing the selected image): where [querySelector] finds a
    selected image, the root after [adjustImageSize] has, at that image, the
    old class list without the three width classes followed by the class of
    the requested size, so of the width classes exactly that one is present
    and every other class is present as before, with the image's children
    kept, and the label of every other node is as before; where it finds
    none, no descendant is a selected image and the root is unchanged; and
    without a root nothing is done. *)
Theorem adjustImageSize_frame s el :
  match querySelector img_image_selected el with
  | Some p =>
      ∃ cl kids root',
        p ≠ []
        ∧ node_at p el = Some (Element "img" cl kids)
        ∧ "image-selected" ∈ cl
        ∧ adjustImageSize s (Some el) = Some root'
        ∧ node_at p root' =
            Some (Element "img"
                    (filter (λ c, c ∉ width_classes) cl ++ [size_class s])
                    kids)
        ∧ (∀ w, w ∈ width_classes →
             w ∈ filter (λ c, c ∉ width_classes) cl ++ [size_class s]
             ↔ w = size_class s)
        ∧ (∀ c, c ∉ width_classes →
             c ∈ filter (λ c, c ∉ width_classes) cl ++ [size_class s]
             ↔ c ∈ cl)
        ∧ (∀ q, q ≠ p → label_at q root' = label_at q el)
  | None =>
      (∀ q t cl kids, q ≠ [] →
         node_at q el = Some (Element t cl kids) →
         img_image_selected t cl = false)
      ∧ adjustImageSize s (Some el) = Some el
  end
  ∧ adjustImageSize s None = None.
Proof.
  split; [|done].
  destruct (querySelector img_image_selected el) as [p|] eqn:Hsel.
  - destruct (querySelector_Some _ _ _ Hsel) as (Hp & t & cl & kids & Hat & Hm).
    unfold img_image_selected in Hm. apply andb_true_iff in Hm as [Ht Hc].
    apply String.eqb_eq in Ht as ->. apply bool_decide_eq_true in Hc.
    exists cl, kids. eexists.
    rewrite (adjustImageSize_selected s _ _ Hsel).
    split_and!; [done..| | | |].
    + rewrite !node_at_update_at, Hat. cbn.
      by rewrite (classList_add_after_remove _ _ (size_class_width s)).
    + intros w Hw.
      rewrite elem_of_app, list_elem_of_filter, list_elem_of_singleton.
      tauto.
    + intros c Hc'.
      rewrite elem_of_app, list_elem_of_filter, list_elem_of_singleton.
      pose proof (size_class_width s). split; [|tauto].
      intros [[_ ?]| ->]; done.
    + intros q Hq. by rewrite !label_at_update_other.
  - split; [by apply querySelector_None|].
    unfold adjustImageSize. by rewrite Hsel.
Qed.

(** On the sample root: the image that is not selected keeps its label. *)
Lemma adjustImageSize_frame_witness :
  ∃ root', adjustImageSize small (Some sample_root) = Some root'
    ∧ label_at [0; 1] root' = Some (LElement "img" ["w-4/5"]).
Proof.
  pose proof (adjustImageSize_frame small sample_root) as [Hsel _].
  assert (Hq : querySelector img_image_selected sample_root = Some [1; 0])
    by reflexivity.
  rewrite Hq in Hsel.
  destruct Hsel
    as (cl & kids & root' & _ & _ & _ & Hroot & _ & _ & _ & Hothers).
  exists root'. split; [exact Hroot|].
  rewrite Hothers; [reflexivity | discriminate].
Defined.

(** The selected image of the sample root is made small: it loses
    [w-full], keeps its other classes and gets [w-3/5]; the other image keeps
    its width class. *)
Example adjustImageSize_sample :
  adjustImageSize small (Some sample_root) =
    Some (Element "div" ["ql-editor"]
      [ Element "p" [] [Text "Intro"; Element "img" ["w-4/5"] []];
        Element "p" []
          [ Element "img" ["image-selected"; "rounded"; "w-3/5"] [];
            Text "caption" ] ]).
Proof. vm_compute. reflexivity. Qed.

End DOMFacts.

(** ** The component over a whole run *)

Section ComponentTraceFacts.
Import JS QuillBlogEditor ComponentTrace.
Context {Q : Type} `{!QuillAPI Q}.

Lemma count_app {A} (f : A → bool) l1 l2 :
  count f (l1 ++ l2) = count f l1 + count f l2.
Proof. unfold count. by rewrite List.filter_app, length_app. Qed.

Lemma step_initial (e : event (Q:=Q)) : step e initial = initial.
Proof. by destruct e. Qed.

(** Without a container [onMounted] returns before it creates the editor,
    and from then on the watcher, the key handler and every notification
    leave the component as it is: no library call, nothing emitted. *)
Theorem no_container_inert p (es : list (event (Q:=Q))) :
  run es (mount p false) = initial.
Proof.
  rewrite mount_no_container.
  induction es as [|e es IH] using rev_ind; [done|].
  by rewrite run_snoc, IH, step_initial.
Qed.

(** What a single event adds to the emitted events of a mounted
    component. *)
Lemma step_emits e c :
  mounted c →
  ∃ q, quill c = Some q ∧ emits (step e c) = emits c ++ emitted_by e q.
Proof.
  intros ([q Hq] & Ht & Hs). exists q. split; [done|].
  destruct e as [newVal| |r|r context|q'].
  - destruct (decide (newVal = innerHTML q)) as [Heq|Hne].
    + rewrite (step_model_value_equal _ _ _ Hq Heq). cbn. by rewrite app_nil_r.
    + rewrite (step_model_value_differs _ _ _ Hq Hne). cbn. by rewrite app_nil_r.
  - rewrite (step_text_change _ _ Hq Ht). cbn. by rewrite <- app_assoc.
  - rewrite (step_selection_change _ _ Hs). by destruct r.
  - destruct (softBreakHandler_keeps r context c) as (_ & He & _).
    unfold step. rewrite He. cbn. by rewrite app_nil_r.
  - unfold step. rewrite Hq. cbn. by rewrite app_nil_r.
Qed.

(** [ready] is the first event a mounted component emits and it is emitted
    once; and over any run there are as many [update:modelValue] events, and
    as many [text-change] events, as text-change notifications were
    delivered, and as many [focus] and [blur] events as selection-change
    notifications: prop changes, key presses and edits emit nothing. *)
Theorem emitted_events_counted p (es : list (event (Q:=Q))) :
  let c := run es (mount p true) in
  (∃ q rest, emits c = Ready q :: rest ∧ count is_ready rest = 0)
  ∧ count is_update (emits c) = count is_text_change_event es
  ∧ count is_text_change (emits c) = count is_text_change_event es
  ∧ count is_focus_or_blur (emits c) = count is_selection_event es.
Proof.
  cbv zeta. induction es as [|e es IH] using rev_ind.
  - rewrite mount_container. cbn. split_and!; [|done..]. by eexists _, [].
  - rewrite run_snoc.
    destruct (step_emits e _ (run_mounted p es)) as (q & Hq & ->).
    destruct IH as ((q0 & rest & -> & Hrest) & Hu & Ht & Hf).
    rewrite !count_app, Hu, Ht, Hf. split_and!.
    + exists q0, (rest ++ emitted_by e q). split; [done|].
      rewrite count_app, Hrest.
      destruct e as [| |[]| |]; done.
    + destruct e as [| |[]| |]; cbn; lia.
    + destruct e as [| |[]| |]; cbn; lia.
    + destruct e as [| |[]| |]; cbn; lia.
Qed.

Lemma soft_break_calls q rg context ls cs ems :
  calls (exec (softBreakHandler (Some rg) context)
    {| quill := Some q; listeners := ls; calls := cs; emits := ems |})
  = cs ++ calls_by (EvShiftEnter (Some rg) context) q.
Proof.
  unfold exec, softBreakHandler, bind, read_quill. cbn.
  destruct (needs_second_break _ _); cbn; by rewrite <- !app_assoc.
Qed.

(** What a single event adds to the library calls of a mounted
    component. *)
Lemma step_calls e c :
  mounted c →
  ∃ q, quill c = Some q ∧ calls (step e c) = calls c ++ calls_by e q.
Proof.
  intros ([q Hq] & Ht & Hs). exists q. split; [done|].
  destruct e as [newVal| |r|r context|q'].
  - cbn [calls_by]. destruct (String.eqb_spec newVal (innerHTML q)) as [Heq|Hne].
    + rewrite (step_model_value_equal _ _ _ Hq Heq). by rewrite app_nil_r.
    + by rewrite (step_model_value_differs _ _ _ Hq Hne).
  - rewrite (step_text_change _ _ Hq Ht). cbn. by rewrite app_nil_r.
  - rewrite (step_selection_change _ _ Hs). cbn. by rewrite app_nil_r.
  - destruct c as [oq ls cs ems]. cbn in Hq. subst oq.
    destruct r as [rg|].
    + unfold step.
      by rewrite (soft_break_calls q rg context ls cs ems).
    + cbn. by rewrite app_nil_r.
  - unfold step. rewrite Hq. cbn. by rewrite app_nil_r.
Qed.

Ltac count_cases e :=
  destruct e as [?| |?|[?|] ?|?]; cbn [calls_by];
  repeat match goal with
         | |- context [if ?b then _ else _] => destruct b
         end;
  cbn in *; lia.

Lemma calls_by_kinds (e : event (Q:=Q)) q :
  Forall (λ k, is_paste_call k || is_insert_call k
               || is_set_selection_call k = true) (calls_by e q).
Proof.
  destruct e as [newVal| |r|[rg|] context|q']; cbn [calls_by];
    repeat match goal with
           | |- context [if ?b then _ else _] => destruct b
           end;
    repeat constructor.
Qed.

(** The library calls over any run of a mounted component: it starts by
    adding the [BR] matcher and pasting the initial content; every later
    call is a paste, an [insertEmbed] or a [setSelection]; it pastes at most
    once per prop change, sets the selection exactly once per Shift+Enter
    that has a range, and inserts one or two breaks for each of those; and
    a notification, or a change the editor makes to its own state, causes
    no call. *)
Theorem library_calls_counted p (es : list (event (Q:=Q))) :
  let c := run es (mount p true) in
  (∃ rest,
     calls c = [CallAddMatcher "BR"; CallPasteHTML (modelValue p)] ++ rest
     ∧ Forall (λ k, is_paste_call k || is_insert_call k
                    || is_set_selection_call k = true) rest
     ∧ (count is_paste_call rest ≤ count is_model_value_event es)%nat)
  ∧ count is_set_selection_call (calls c) = count has_range es
  ∧ (count has_range es ≤ count is_insert_call (calls c))%nat
  ∧ (count is_insert_call (calls c) ≤ 2 * count has_range es)%nat
  ∧ (∀ e, is_notification_or_edit e = true → calls (step e c) = calls c).
Proof.
  cbv zeta.
  assert (Hnone : ∀ e, is_notification_or_edit e = true →
    calls (step e (run es (mount p true))) = calls (run es (mount p true))).
  { intros e He.
    destruct (step_calls e _ (run_mounted p es)) as (q & _ & ->).
    destruct e; try done; by rewrite app_nil_r. }
  match goal with
  | |- ?A ∧ ?B ∧ ?C ∧ ?D ∧ _ =>
      assert (Hmain : A ∧ B ∧ C ∧ D);
        [clear Hnone | destruct Hmain as (? & ? & ? & ?); by split_and!]
  end.
  induction es as [|e es IH] using rev_ind.
  - rewrite mount_container. cbn. split_and!; try done.
    exists []. split_and!; [done|constructor|cbn; lia].
  - rewrite run_snoc.
    destruct (step_calls e _ (run_mounted p es)) as (q & Hq & ->).
    destruct IH as ((rest & -> & Hkinds & Hp) & Hs & Hlo & Hhi).
    rewrite !count_app in *. split_and!.
    + exists (rest ++ calls_by e q). rewrite !count_app.
      split_and!; [by rewrite <- app_assoc| |].
      * apply Forall_app. split; [done|apply calls_by_kinds].
      * count_cases e.
    + count_cases e.
    + count_cases e.
    + count_cases e.
Qed.

(** The echo of the component's own update is not pasted back: when the
    parent answers an emitted [update:modelValue] by setting [modelValue] to
    the emitted HTML, as [v-model] does, and the editor has not changed in
    between, the watcher leaves the component and the editor as they
    are. *)
Theorem echoed_update_not_pasted p (es : list (event (Q:=Q))) html :
  last_update (step EvTextChange (run es (mount p true))) = Some html →
  step (EvModelValue html) (step EvTextChange (run es (mount p true)))
    = step EvTextChange (run es (mount p true)).
Proof.
  destruct (run_mounted p es) as ([q Hq] & Ht & _).
  rewrite (step_text_change _ _ Hq Ht), last_update_snoc_update.
  intros [= <-]. by apply (step_model_value_equal _ q).
Qed.

End ComponentTraceFacts.

Section EchoOnPlainEditor.
Import JS QuillBlogEditor PlainEditor.

Lemma echoed_update_not_pasted_witness :
  step (EvModelValue "<p>Initial</p>")
    (step EvTextChange (run [] (mount (mount_props "<p>Initial</p>") true)))
  = step EvTextChange (run [] (mount (mount_props "<p>Initial</p>") true)).
Proof.
  apply (echoed_update_not_pasted (mount_props "<p>Initial</p>") []).
  reflexivity.
Defined.

End EchoOnPlainEditor.

(** ** More on the configuration *)

Section ConfigurationMore.
Import JS QuillBlogEditor.


(** The name [compact] is no preset and no inherited property. *)
Lemma toolbar_config_fallback_witness :
  toolbar_config (ToolbarName "compact") = TOOLBAR_PRESETS_full.
Proof.
  apply toolbar_config_fallback; [discriminate | discriminate |].
  apply (bool_decide_unpack _). vm_compute. exact I.
Defined.

(** The modules Quill is given are the two defaults and the caller's, an
    own [__proto__] apart: [keyboard] and [toolbar] are always configured,
    and nothing else is unless the caller names it. *)
Theorem mergedModules_dom t m :
  dom (mergedModules t (Some m))
    = ({["keyboard"; "toolbar"]} ∪ dom m) ∖ {["__proto__"]}
  ∧ dom (mergedModules t None) = {["keyboard"; "toolbar"]}.
Proof.
  split.
  - apply set_eq. intros k.
    rewrite elem_of_dom, mergedModules_lookup, elem_of_difference,
      elem_of_union, elem_of_dom, elem_of_singleton.
    destruct (decide (k = "__proto__")) as [->|Hp].
    + split; [by intros [? ?]|by intros [_ []]].
    + rewrite lookup_union_is_Some. unfold defaultModules.
      rewrite !lookup_insert_is_Some', elem_of_union, !elem_of_singleton.
      pose proof (lookup_empty_is_Some (M:=gmap string) (A:=value) k).
      intuition congruence.
  - unfold mergedModules, defaultModules.
    by rewrite !dom_insert_L, dom_empty_L, (right_id_L ∅ (∪)).
Qed.

(** What Quill is constructed with: an entry of [options] (other than
    [modules]) is passed on as it is and takes precedence over the prop of
    the same name; the [theme], [placeholder], [readOnly] and [formats]
    props fill in where [options] has no such entry; nothing else is
    passed; and [options] cannot bypass the merged modules. *)
Theorem finalOptions_precedence p :
  (∀ k v, otherOptions (options p) !! k = Some v →
     fo_entries (finalOptions p) !! k = Some v)
  ∧ (otherOptions (options p) !! "theme" = None →
       fo_entries (finalOptions p) !! "theme" = Some (VStr (theme p)))
  ∧ (otherOptions (options p) !! "placeholder" = None →
       fo_entries (finalOptions p) !! "placeholder"
         = Some (VStr (placeholder p)))
  ∧ (otherOptions (options p) !! "readOnly" = None →
       fo_entries (finalOptions p) !! "readOnly"
         = Some (VBool (readOnly p)))
  ∧ (otherOptions (options p) !! "formats" = None →
       fo_entries (finalOptions p) !! "formats"
         = Some (formats_value (formats p)))
  ∧ (∀ k, otherOptions (options p) !! k = None →
       k ∉ ["theme"; "placeholder"; "readOnly"; "formats"] →
       fo_entries (finalOptions p) !! k = None)
  ∧ fo_modules (finalOptions p)
      = mergedModules (toolbar p) (modules (options p)).
Proof.
  unfold finalOptions. cbn [fo_entries fo_modules]. split_and!; [| | | | | |done].
  - intros k v Hk. by apply lookup_union_Some_l.
  - intros Hk. by rewrite lookup_union_r.
  - intros Hk. by rewrite lookup_union_r.
  - intros Hk. by rewrite lookup_union_r.
  - intros Hk. by rewrite lookup_union_r.
  - intros k Hk Hnot. rewrite lookup_union_r by done.
    rewrite !not_elem_of_cons in Hnot. destruct Hnot as (? & ? & ? & ? & _).
    by rewrite !lookup_insert_ne, lookup_empty.
Qed.

End ConfigurationMore.

(** ** More on snapshots and removed images *)

Section SnapshotsMore.
Import JS ImageHandler.

Lemma extractImageSources_ops l :
  extractImageSources {| ops := Some l |} = omap op_image l.
Proof. by rewrite extractImageSources_omap. Qed.

(** Reading a snapshot: without [ops] there are no images; the images of a
    snapshot are those of its ops in document order, so reading distributes
    over splitting the ops; and every value read is truthy (never an empty
    string, [null] or [undefined]). *)
Theorem extractImageSources_shape l1 l2 :
  extractImageSources {| ops := None |} = []
  ∧ extractImageSources {| ops := Some [] |} = []
  ∧ extractImageSources {| ops := Some (l1 ++ l2) |}
      = extractImageSources {| ops := Some l1 |}
        ++ extractImageSources {| ops := Some l2 |}
  ∧ Forall (λ url, prim_truthy url = true)
      (extractImageSources {| ops := Some l1 |}).
Proof.
  split_and!; [done..| |].
  - by rewrite !extractImageSources_ops, omap_app.
  - apply Forall_forall. intros url Hin.
    apply elem_of_extractImageSources in Hin.
    by destruct Hin as (? & ? & ? & _ & _ & _ & _ & Ht).
Qed.

(** Ops that insert text, retain or delete contribute no image. *)
Theorem extractImageSources_no_embed l :
  Forall (λ o, ∀ embed, insert o ≠ Some (InsertEmbed embed)) l →
  extractImageSources {| ops := Some l |} = [].
Proof.
  intros Hl. rewrite extractImageSources_ops.
  induction Hl as [|o l Ho _ IH]; [done|]. cbn. rewrite IH.
  unfold op_image. destruct (insert o) as [[text|embed]|]; [|by destruct (Ho embed)|done].
  cbn. by rewrite andb_false_r.
Qed.

Lemma extractImageSources_no_embed_witness :
  extractImageSources
    {| ops := Some [text_op "Hello"; delete_op 3; text_op "world"] |} = [].
Proof.
  apply extractImageSources_no_embed.
  repeat constructor; intros embed; discriminate.
Defined.

(** A document made of image embeds with non-empty URLs is read back as
    exactly those URLs, in order and with repetitions. *)
Theorem extractImageSources_image_ops urls :
  Forall (λ url, url ≠ EmptyString) urls →
  extractImageSources {| ops := Some (image_op <$> urls) |} = PStr <$> urls.
Proof.
  intros Hurls. rewrite extractImageSources_ops.
  induction Hurls as [|url urls Hurl _ IH]; [done|]. cbn. rewrite IH.
  unfold op_image, image_op. cbn. rewrite lookup_insert_eq. cbn.
  destruct (String.eqb_spec url EmptyString); done.
Qed.

Lemma extractImageSources_image_ops_witness :
  extractImageSources
    {| ops := Some (image_op <$> ["/a.png"; "/b.png"; "/a.png"]) |}
  = PStr <$> ["/a.png"; "/b.png"; "/a.png"].
Proof.
  apply extractImageSources_image_ops. repeat constructor; discriminate.
Defined.

Section ListenerMore.
Context {Q : Type} (getContents : Q → delta).

(** The listener makes no delete call exactly when every image URL of the
    previous snapshot is still referenced by the current one; in particular
    when the two snapshots reference the same images (an edit of text only,
    or images moved around), and when the previous snapshot has none. *)
Theorem no_delete_iff_all_kept (q : Q) change oldDelta src :
  (on_text_change getContents q change oldDelta src = [] ↔
     ∀ url, references oldDelta url → references (getContents q) url)
  ∧ (extractImageSources (getContents q) ≡ₚ extractImageSources oldDelta →
       on_text_change getContents q change oldDelta src = [])
  ∧ (extractImageSources oldDelta = [] →
       on_text_change getContents q change oldDelta src = []).
Proof.
  assert (Hiff : on_text_change getContents q change oldDelta src = [] ↔
     ∀ url, references oldDelta url → references (getContents q) url).
  { unfold on_text_change. split.
    - intros Hnil url Hold%elem_of_extractImageSources.
      apply elem_of_extractImageSources.
      destruct (decide (url ∈ extractImageSources (getContents q)))
        as [|Hnew]; [done|].
      by destruct (filter_nil_not_elem_of _ _ url Hnil Hnew).
    - intros Hall. apply elem_of_nil_inv. intros url.
      rewrite list_elem_of_filter, !elem_of_extractImageSources.
      intros [Hnew Hold]. by apply Hnew, Hall. }
  split_and!; [done| |].
  - intros Hperm. apply Hiff. intros url Hold%elem_of_extractImageSources.
    apply elem_of_extractImageSources. by rewrite Hperm.
  - intros Hnone. unfold on_text_change. by rewrite Hnone.
Qed.

End ListenerMore.

Lemma no_delete_iff_all_kept_witness :
  on_text_change (λ d : delta, d)
    {| ops := Some [text_op "moved"; image_op "/a.png"] |}
    {| ops := None |}
    {| ops := Some [image_op "/a.png"; text_op "text"] |}
    QuillBlogEditor.USER = [].
Proof.
  apply (proj1 (proj2 (no_delete_iff_all_kept (λ d : delta, d) _ _ _ _))).
  reflexivity.
Defined.

End SnapshotsMore.

(** ** Selecting images by clicks *)

Section QuerySelectorAll.
Import ImageHandler ImageHandlerClicks.

Lemma node_at_label_at p n t cl kids :
  node_at p n = Some (Element t cl kids) →
  label_at p n = Some (LElement t cl).
Proof. unfold label_at. by intros ->. Qed.

Lemma label_at_element p n t cl :
  label_at p n = Some (LElement t cl) →
  ∃ kids, node_at p n = Some (Element t cl kids).
Proof.
  unfold label_at. destruct (node_at p n) as [[t' cl' kids|d]|]; [|done..].
  intros [= -> ->]. by exists kids.
Qed.

Lemma label_at_update_at p q g n :
  label_at q (update_at p (on_classList g) n)
    = (if decide (q = p) then label_classes g else id) <$> label_at q n.
Proof.
  destruct (decide (q = p)) as [->|Hne].
  - unfold label_at. rewrite node_at_update_at.
    by destruct (node_at p n) as [[]|].
  - rewrite label_at_update_other by done. by destruct (label_at q n).
Qed.

(** Removing or adding classes at several paths, one after the other. *)
Lemma label_at_foldl_update g ps q n :
  (∀ cl, g (g cl) = g cl) →
  label_at q (foldl (λ r p, update_at p (on_classList g) r) n ps)
    = (if decide (q ∈ ps) then label_classes g else id) <$> label_at q n.
Proof.
  intros Hg. revert n. induction ps as [|p ps IH]; intros n; cbn [foldl].
  - rewrite decide_False by apply not_elem_of_nil. by destruct (label_at q n).
  - rewrite IH, label_at_update_at.
    destruct (decide (q = p)) as [->|Hne].
    + rewrite (decide_True (P:=p ∈ p :: ps)) by apply list_elem_of_here.
      destruct (label_at p n) as [[t cl|d]|]; destruct (decide (p ∈ ps));
        cbn; by rewrite ?Hg.
    + destruct (decide (q ∈ ps)) as [Hin|Hnin].
      * rewrite decide_True by (by apply list_elem_of_further).
        by destruct (label_at q n).
      * rewrite decide_False; [by destruct (label_at q n)|].
        by intros [->|?]%elem_of_cons.
Qed.

Lemma elem_of_all_among find kids i p :
  p ∈ all_among find kids i ↔
  ∃ j k p', p = (i + j) :: p' ∧ kids !! j = Some k ∧ p' ∈ find k.
Proof.
  revert i. induction kids as [|k kids IH]; intros i; cbn.
  - rewrite elem_of_nil. split; [done|]. by intros (j & ? & ? & _ & ? & _).
  - rewrite elem_of_app, list_elem_of_fmap, IH. split.
    + intros [(p' & -> & Hp')|(j & k' & p' & -> & Hj & Hp')].
      * exists 0, k, p'. by rewrite Nat.add_0_r.
      * exists (S j), k', p'. split_and!; [f_equal; lia|done..].
    + intros ([|j] & k' & p' & -> & Hj & Hp').
      * left. cbn in Hj. injection Hj as <-. exists p'.
        by rewrite Nat.add_0_r.
      * right. exists j, k', p'. split_and!; [f_equal; lia|done..].
Qed.

Lemma elem_of_all_matches sel n :
  ∀ p, p ∈ all_matches sel n ↔
  ∃ t cl kids, node_at p n = Some (Element t cl kids) ∧ sel t cl = true.
Proof.
  induction n as [d|t cl kids IH] using node_children_ind; intros p.
  - cbn. rewrite elem_of_nil. split; [done|].
    intros (t & cl & kids & Hat & _). by destruct p.
  - cbn [all_matches]. rewrite elem_of_app, elem_of_all_among.
    rewrite Forall_lookup in IH. split.
    + intros [Hroot|(j & k & p' & -> & Hj & Hp')].
      * destruct (sel t cl) eqn:Hsel; [|by apply elem_of_nil in Hroot].
        apply list_elem_of_singleton in Hroot as ->. by exists t, cl, kids.
      * apply (IH j k Hj) in Hp' as (t' & cl' & kids' & Hat & Hs).
        exists t', cl', kids'. split; [|done]. cbn. by rewrite Hj.
    + intros (t' & cl' & kids' & Hat & Hs). destruct p as [|j p'].
      * injection Hat as <- <- <-. left. rewrite Hs.
        by apply list_elem_of_singleton.
      * right. cbn in Hat. destruct (kids !! j) as [k|] eqn:Hj; [|done].
        exists j, k, p'. split_and!; [done..|].
        apply (IH j k Hj). by exists t', cl', kids'.
Qed.

(** [querySelectorAll] returns exactly the descendants the selector
    matches. *)
Lemma elem_of_querySelectorAll sel el p :
  p ∈ querySelectorAll sel el ↔
  p ≠ []
  ∧ ∃ t cl kids, node_at p el = Some (Element t cl kids) ∧ sel t cl = true.
Proof.
  destruct el as [t cl kids|d]; cbn [querySelectorAll].
  - rewrite elem_of_all_among. split.
    + intros (j & k & p' & -> & Hj & Hp'). split; [done|].
      apply elem_of_all_matches in Hp' as (t' & cl' & kids' & Hat & Hs).
      exists t', cl', kids'. split; [|done]. cbn. by rewrite Hj.
    + intros (Hne & t' & cl' & kids' & Hat & Hs).
      destruct p as [|j p']; [done|]. cbn in Hat.
      destruct (kids !! j) as [k|] eqn:Hj; [|done].
      exists j, k, p'. split_and!; [done..|].
      apply elem_of_all_matches. by exists t', cl', kids'.
  - rewrite elem_of_nil. split; [done|].
    intros (_ & t & cl & kids & Hat & _). by destruct p.
Qed.

Lemma NoDup_all_among find kids i :
  Forall (λ k, NoDup (find k)) kids → NoDup (all_among find kids i).
Proof.
  intros Hkids. revert i. induction Hkids as [|k kids Hk _ IH]; intros i; cbn.
  - constructor.
  - apply NoDup_app. split_and!.
    + apply NoDup_fmap_2; [|done]. by intros ?? [= ->].
    + intros p (p' & -> & _)%list_elem_of_fmap
        (j & ? & ? & [= Hi _] & _)%elem_of_all_among. lia.
    + apply IH.
Qed.

Lemma NoDup_all_matches sel n : NoDup (all_matches sel n).
Proof.
  induction n as [d|t cl kids IH] using node_children_ind; cbn.
  - constructor.
  - apply NoDup_app. split_and!.
    + destruct (sel t cl); [apply NoDup_singleton | constructor].
    + intros p Hp (j & ? & ? & -> & _)%elem_of_all_among.
      destruct (sel t cl); [|by apply elem_of_nil in Hp].
      by apply list_elem_of_singleton in Hp.
    + by apply NoDup_all_among.
Qed.

Lemma NoDup_querySelectorAll sel el : NoDup (querySelectorAll sel el).
Proof.
  destruct el as [t cl kids|d]; cbn; [|constructor].
  apply NoDup_all_among, Forall_forall. intros k _. apply NoDup_all_matches.
Qed.

Lemma first_among_head find all kids i :
  Forall (λ k, find k = head (all k)) kids →
  first_among find kids i = head (all_among all kids i).
Proof.
  intros Hkids. revert i. induction Hkids as [|k kids Hk _ IH]; intros i;
    cbn; [done|].
  rewrite Hk. destruct (all k) as [|p ps]; cbn; [apply IH|done].
Qed.

Lemma first_match_head sel n :
  first_match sel n = head (all_matches sel n).
Proof.
  induction n as [d|t cl kids IH] using node_children_ind; cbn; [done|].
  destruct (sel t cl); [done|]. cbn. by apply first_among_head.
Qed.

Lemma querySelector_first sel el :
  querySelector sel el = head (querySelectorAll sel el).
Proof.
  destruct el as [t cl kids|d]; cbn; [|done].
  apply first_among_head, Forall_forall. intros k _. apply first_match_head.
Qed.

(** [querySelectorAll] returns exactly the descendants the selector
    matches, each once, and [querySelector] returns the first of them, or
    nothing where there is none. *)
Theorem querySelector_head sel el :
  querySelector sel el = head (querySelectorAll sel el)
  ∧ NoDup (querySelectorAll sel el)
  ∧ ∀ p, p ∈ querySelectorAll sel el ↔
      p ≠ []
      ∧ ∃ t cl kids,
          node_at p el = Some (Element t cl kids) ∧ sel t cl = true.
Proof.
  split_and!.
  - apply querySelector_first.
  - apply NoDup_querySelectorAll.
  - apply elem_of_querySelectorAll.
Qed.

End QuerySelectorAll.

Section Clicks.
Import ImageHandler ImageHandlerClicks.

Lemma classList_remove_idem tokens cl :
  classList_remove tokens (classList_remove tokens cl)
    = classList_remove tokens cl.
Proof.
  unfold classList_remove. rewrite list_filter_filter.
  apply list_filter_iff. tauto.
Qed.

Lemma elem_of_classList_remove tokens cl c :
  c ∈ classList_remove tokens cl ↔ (c ∉ tokens) ∧ (c ∈ cl).
Proof. unfold classList_remove. by rewrite list_elem_of_filter. Qed.

Lemma elem_of_classList_add token cl c :
  c ∈ classList_add token cl ↔ (c = token) ∨ (c ∈ cl).
Proof.
  unfold classList_add. case_bool_decide as Hin.
  - split; [tauto|]. by intros [->|?].
  - rewrite elem_of_app, list_elem_of_singleton. tauto.
Qed.

Lemma elem_of_selected_images el q :
  q ∈ selected_images el ↔
  q ≠ []
  ∧ ∃ cl, label_at q el = Some (LElement "img" cl) ∧ "image-selected" ∈ cl.
Proof.
  unfold selected_images. rewrite elem_of_querySelectorAll.
  unfold img_image_selected. split.
  - intros (Hne & t & cl & kids & Hat & [Ht Hc]%andb_true_iff).
    apply String.eqb_eq in Ht as ->. apply bool_decide_eq_true in Hc.
    split; [done|]. exists cl. split; [|done]. by eapply node_at_label_at.
  - intros (Hne & cl & Hat & Hc). split; [done|].
    apply label_at_element in Hat as [kids Hat].
    exists "img", cl, kids. split; [done|].
    by rewrite String.eqb_refl, bool_decide_eq_true_2.
Qed.

Lemma selected_images_singleton el p :
  (∀ q, q ∈ selected_images el ↔ q = p) → selected_images el = [p].
Proof.
  intros Hiff. apply Permutation_singleton_r, NoDup_Permutation.
  - apply NoDup_querySelectorAll.
  - apply NoDup_singleton.
  - intros q. by rewrite Hiff, list_elem_of_singleton.
Qed.

Lemma label_at_deselect_images q el :
  label_at q (deselect_images el)
    = (if decide (q ∈ selected_images el)
       then label_classes (classList_remove ["image-selected"])
       else id) <$> label_at q el.
Proof.
  unfold deselect_images. rewrite label_at_foldl_update; [done|].
  apply classList_remove_idem.
Qed.

Lemma only_image_classes_differ_refl n : only_image_classes_differ n n.
Proof. intros q. by left. Qed.

Lemma only_image_classes_differ_trans n1 n2 n3 :
  only_image_classes_differ n1 n2 → only_image_classes_differ n2 n3 →
  only_image_classes_differ n1 n3.
Proof.
  intros H12 H23 q.
  destruct (H12 q) as [E12|(cl1 & cl2 & E1 & E2)],
           (H23 q) as [E23|(cl2' & cl3 & E2' & E3)].
  - left. congruence.
  - right. exists cl2', cl3. split; congruence.
  - right. exists cl1, cl2. split; congruence.
  - right. by exists cl1, cl3.
Qed.

Lemma only_image_classes_differ_update p g n :
  (∀ t cl, label_at p n = Some (LElement t cl) → t = "img") →
  only_image_classes_differ n (update_at p (on_classList g) n).
Proof.
  intros Himg q. rewrite label_at_update_at.
  destruct (decide (q = p)) as [->|_]; [|left; by destruct (label_at q n)].
  destruct (label_at p n) as [[t cl|d]|] eqn:Hl; [|by left..].
  rewrite (Himg t cl eq_refl). right. by exists cl, (g cl).
Qed.

Lemma is_img_label p n :
  is_img p n = true ↔ ∃ cl, label_at p n = Some (LElement "img" cl).
Proof.
  unfold is_img, label_at. destruct (node_at p n) as [[t cl kids|d]|]; cbn.
  - rewrite String.eqb_eq. split; [intros ->; by exists cl|].
    by intros (cl' & [= -> _]).
  - split; [done|]. by intros (? & ?).
  - split; [done|]. by intros (? & ?).
Qed.

Lemma selected_images_deselect el : selected_images (deselect_images el) = [].
Proof.
  apply elem_of_nil_inv. intros q.
  rewrite elem_of_selected_images, label_at_deselect_images.
  intros (Hne & cl & Hl & Hc).
  destruct (decide (q ∈ selected_images el)) as [Hin|Hnin].
  - destruct (label_at q el) as [[t cl0|d]|]; [|done..].
    injection Hl as -> <-.
    apply elem_of_classList_remove in Hc as [Hc _].
    apply Hc, list_elem_of_singleton. done.
  - apply Hnin, elem_of_selected_images. split; [done|]. exists cl.
    by destruct (label_at q el).
Qed.

(** Deselecting: afterwards no image is selected; the images that were
    selected lose the class [image-selected] and nothing else, and every
    other node keeps its label. *)
Theorem deselect_images_deselects el :
  selected_images (deselect_images el) = []
  ∧ (∀ q cl, q ∈ selected_images el →
       label_at q el = Some (LElement "img" cl) →
       label_at q (deselect_images el)
         = Some (LElement "img" (filter (λ c, c ≠ "image-selected") cl)))
  ∧ (∀ q, q ∉ selected_images el →
       label_at q (deselect_images el) = label_at q el).
Proof.
  split_and!.
  - apply selected_images_deselect.
  - intros q cl Hin Hl. rewrite label_at_deselect_images, decide_True, Hl by done.
    cbn. do 2 f_equal. unfold classList_remove. apply list_filter_iff.
    intros c. by rewrite list_elem_of_singleton.
  - intros q Hnin. rewrite label_at_deselect_images, decide_False by done.
    by destruct (label_at q el).
Qed.

Lemma deselect_images_only_classes el :
  only_image_classes_differ el (deselect_images el).
Proof.
  intros q. rewrite label_at_deselect_images.
  destruct (decide (q ∈ selected_images el)) as [Hin|_];
    [|left; by destruct (label_at q el)].
  apply elem_of_selected_images in Hin as (_ & cl & Hl & _).
  right. rewrite Hl. by eexists _, _.
Qed.

Lemma root_closeContextMenu u : root (closeContextMenu u) = root u.
Proof. unfold closeContextMenu. by destruct (contextMenuEl u). Qed.

Lemma root_openContextMenu img u : root (openContextMenu img u) = root u.
Proof. unfold openContextMenu. cbn. apply root_closeContextMenu. Qed.

Lemma closeContextMenu_consistent u :
  body u = option_list (contextMenuEl u) →
  closeContextMenu u =
    {| root := root u; contextMenuEl := None; body := [];
       created := created u |}.
Proof.
  unfold closeContextMenu.
  destruct u as [r [m|] b n]; cbn [contextMenuEl body root created];
    intros Hb; cbn in Hb; subst b; [|done].
  f_equal. rewrite (filter_cons _ m []).
  by destruct (decide (menu_id m ≠ menu_id m)).
Qed.

Lemma click_image u p :
  is_img p (root u) = true →
  click (InEditor p) u =
    openContextMenu p
      (with_root
         (update_at p (on_classList (classList_add "image-selected"))
            (deselect_images (root u))) u).
Proof. intros Himg. unfold click, editor_click. by rewrite Himg. Qed.

Lemma click_other u p :
  is_img p (root u) = false →
  click (InEditor p) u =
    closeContextMenu (with_root (deselect_images (root u)) u).
Proof.
  intros Himg. unfold click, editor_click. rewrite Himg.
  unfold document_click, closeContextMenu. cbn.
  destruct (contextMenuEl u) eqn:Hm; cbn; by rewrite ?Hm.
Qed.

Lemma label_at_select el p cl :
  label_at p el = Some (LElement "img" cl) →
  ∃ cl',
    label_at p (update_at p (on_classList (classList_add "image-selected"))
                  (deselect_images el))
      = Some (LElement "img" cl')
    ∧ ∀ c, c ∈ cl' ↔ c = "image-selected" ∨ c ∈ cl.
Proof.
  intros Hcl.
  rewrite label_at_update_at, decide_True, label_at_deselect_images, Hcl
    by done.
  destruct (decide (p ∈ selected_images el)); cbn; eexists;
    (split; [done|]); intros c; rewrite elem_of_classList_add;
    rewrite ?elem_of_classList_remove, ?list_elem_of_singleton;
    destruct (decide (c = "image-selected")); tauto.
Qed.

Lemma selected_images_select el p :
  is_img p el = true → p ≠ [] →
  selected_images
    (update_at p (on_classList (classList_add "image-selected"))
       (deselect_images el)) = [p].
Proof.
  intros [cl Hcl]%is_img_label Hp.
  destruct (label_at_select el p cl Hcl) as (cl' & Hcl' & Hmem).
  apply selected_images_singleton. intros q.
  rewrite elem_of_selected_images. split.
  - intros (Hq & clq & Hlq & Hsel).
    destruct (decide (q = p)) as [|Hne]; [done|]. exfalso.
    rewrite label_at_update_other in Hlq by done.
    assert (Hin : q ∈ selected_images (deselect_images el))
      by (apply elem_of_selected_images; eauto).
    rewrite selected_images_deselect in Hin. by apply elem_of_nil in Hin.
  - intros ->. split; [done|]. exists cl'. split; [done|].
    apply Hmem. by left.
Qed.

(** A click on an image of the editor: afterwards that image, and no other,
    is selected, and the menu is open; the clicked image has the class
    [image-selected] besides the classes it had, and every other node is as
    deselecting left it. *)
Theorem image_click_selects u p :
  is_img p (root u) = true → p ≠ [] →
  selected_images (root (click (InEditor p) u)) = [p]
  ∧ is_Some (contextMenuEl (click (InEditor p) u))
  ∧ (∀ q, q ≠ p →
       label_at q (root (click (InEditor p) u))
         = label_at q (deselect_images (root u)))
  ∧ ∃ cl cl',
      label_at p (root u) = Some (LElement "img" cl)
      ∧ label_at p (root (click (InEditor p) u)) = Some (LElement "img" cl')
      ∧ ∀ c, c ∈ cl' ↔ c = "image-selected" ∨ c ∈ cl.
Proof.
  intros Himg Hp. rewrite (click_image _ _ Himg), root_openContextMenu. cbn.
  split_and!.
  - by apply selected_images_select.
  - by eexists.
  - intros q Hq. by rewrite label_at_update_other.
  - apply is_img_label in Himg as [cl Hcl].
    destruct (label_at_select _ p cl Hcl) as (cl' & Hcl' & Hmem). eauto.
Qed.

(** The clicked element of the sample root is its first image, which is
    not the selected one. *)
Lemma image_click_selects_witness :
  selected_images
    (root (click (InEditor [0; 1])
             (constructed_on Playground.sample_root))) = [[0; 1]].
Proof.
  apply (image_click_selects (constructed_on Playground.sample_root) [0; 1]);
    [reflexivity | discriminate].
Defined.

(** A click that is not on an image.  In the editor it deselects every
    image and closes the menu; outside the editor and the menu it does so
    only while a menu is open, and otherwise changes nothing, so a selected
    image then stays selected; on the menu beside its buttons it changes
    nothing. *)
Theorem other_click_deselects u :
  body u = option_list (contextMenuEl u) →
  (∀ p, is_img p (root u) = false →
     click (InEditor p) u =
       {| root := deselect_images (root u); contextMenuEl := None;
          body := []; created := created u |})
  ∧ (is_Some (contextMenuEl u) →
       click Elsewhere u =
         {| root := deselect_images (root u); contextMenuEl := None;
            body := []; created := created u |})
  ∧ (contextMenuEl u = None → click Elsewhere u = u)
  ∧ click InMenu u = u.
Proof.
  intros Hbody. split_and!.
  - intros p Himg. rewrite (click_other _ _ Himg).
    by rewrite closeContextMenu_consistent.
  - intros [m Hm]. unfold click, document_click. rewrite Hm.
    rewrite (closeContextMenu_consistent _ Hbody). done.
  - intros Hm. unfold click, document_click. by rewrite Hm.
  - unfold click, document_click. by destruct (contextMenuEl u).
Qed.

Lemma other_click_deselects_witness :
  click (InEditor [0; 0]) (constructed_on Playground.sample_root) =
    {| root := deselect_images Playground.sample_root;
       contextMenuEl := None; body := []; created := 0 |}.
Proof.
  apply (other_click_deselects (constructed_on Playground.sample_root));
    reflexivity.
Defined.

Lemma is_img_preserved before after p :
  only_image_classes_differ before after →
  is_img p after = is_img p before.
Proof.
  intros Hd. apply Bool.eq_iff_eq_true. rewrite !is_img_label.
  destruct (Hd p) as [->|(cl & cl' & -> & ->)]; [done|].
  split; intros _; eauto.
Qed.

Lemma resized_selected s el p :
  querySelector img_image_selected el = Some p →
  resized s el =
    update_at p (on_classList (classList_add (size_class s)))
      (update_at p (on_classList (classList_remove width_classes)) el).
Proof.
  intros Hp. unfold resized. by rewrite (adjustImageSize_selected s el p Hp).
Qed.

Lemma resized_none s el :
  querySelector img_image_selected el = None → resized s el = el.
Proof. intros Hp. unfold resized, adjustImageSize. by rewrite Hp. Qed.

Lemma resized_only_classes s el :
  only_image_classes_differ el (resized s el).
Proof.
  destruct (querySelector img_image_selected el) as [p|] eqn:Hsel.
  - rewrite (resized_selected s el p Hsel).
    destruct (querySelector_Some _ _ _ Hsel) as (_ & t & cl & kids & Hat & Hm).
    apply andb_true_iff in Hm as [->%String.eqb_eq _].
    apply node_at_label_at in Hat.
    eapply only_image_classes_differ_trans;
      apply only_image_classes_differ_update.
    + intros t' cl'. rewrite Hat. by intros [= <- _].
    + intros t' cl'. rewrite label_at_update_at, decide_True, Hat by done.
      by intros [= <- _].
  - rewrite (resized_none s el Hsel). apply only_image_classes_differ_refl.
Qed.

Lemma click_root_differs t u :
  only_image_classes_differ (root u) (root (click t u)).
Proof.
  destruct t as [p|s| |].
  - destruct (is_img p (root u)) eqn:Himg.
    + rewrite (click_image _ _ Himg), root_openContextMenu. cbn.
      eapply only_image_classes_differ_trans;
        [apply deselect_images_only_classes|].
      apply only_image_classes_differ_update. intros t cl Hl.
      rewrite <- (is_img_preserved _ _ p (deselect_images_only_classes (root u)))
        in Himg.
      apply is_img_label in Himg as [cl' Hcl']. congruence.
    + rewrite (click_other _ _ Himg), root_closeContextMenu. cbn.
      apply deselect_images_only_classes.
  - unfold click. destruct (contextMenuEl u);
      [|apply only_image_classes_differ_refl].
    unfold button_click. rewrite root_closeContextMenu. cbn.
    apply resized_only_classes.
  - unfold click, document_click. destruct (contextMenuEl u);
      apply only_image_classes_differ_refl.
  - unfold click, document_click. destruct (contextMenuEl u) eqn:Hm;
      [|apply only_image_classes_differ_refl].
    cbn. rewrite root_closeContextMenu. apply deselect_images_only_classes.
Qed.

Lemma click_consistent t u :
  is_img [] (root u) = false → menu_consistent u →
  menu_consistent (click t u).
Proof.
  intros Hroot Hc. pose proof Hc as [Hbody Hsel]. destruct t as [p|s| |].
  - destruct (is_img p (root u)) eqn:Himg.
    + assert (Hp : p ≠ []) by (intros ->; congruence).
      rewrite (click_image _ _ Himg). unfold openContextMenu.
      rewrite closeContextMenu_consistent by done. cbn. split; [done|].
      intros _. exists p. by apply selected_images_select.
    + rewrite (click_other _ _ Himg), closeContextMenu_consistent by done.
      split; [done|]. by intros [? ?].
  - unfold click. destruct (contextMenuEl u) eqn:Hm; [|done].
    unfold button_click.
    rewrite closeContextMenu_consistent by (cbn; congruence).
    split; [done|]. by intros [? ?].
  - unfold click, document_click. by destruct (contextMenuEl u).
  - unfold click, document_click. destruct (contextMenuEl u) eqn:Hm; [|done].
    rewrite closeContextMenu_consistent by congruence. cbn.
    split; [done|]. by intros [? ?].
Qed.

Lemma clicks_snoc ts t u : clicks (ts ++ [t]) u = click t (clicks ts u).
Proof. unfold clicks. by rewrite foldl_app. Qed.

(** Whatever is clicked, in whatever order: at most the class lists of
    images change (no node appears or disappears, other elements and texts
    stay as they are); the page holds at most one context menu, the one the
    module refers to; and while that menu is open exactly one image is
    selected, so its buttons resize that image. *)
Theorem clicks_keep_menu_consistent r ts :
  is_img [] r = false →
  only_image_classes_differ r (root (clicks ts (constructed_on r)))
  ∧ menu_consistent (clicks ts (constructed_on r)).
Proof.
  intros Hroot. induction ts as [|t ts [Hd Hc]] using rev_ind.
  - split; [apply only_image_classes_differ_refl|].
    split; [done|]. by intros [? ?].
  - rewrite clicks_snoc. split.
    + eapply only_image_classes_differ_trans; [done|].
      apply click_root_differs.
    + apply click_consistent; [|done].
      by rewrite (is_img_preserved _ _ [] Hd).
Qed.

Lemma clicks_keep_menu_consistent_witness :
  menu_consistent
    (clicks [InEditor [0; 1]; InEditor [1; 0]; OnButton small; Elsewhere]
       (constructed_on Playground.sample_root)).
Proof.
  apply (clicks_keep_menu_consistent Playground.sample_root). reflexivity.
Defined.

(** Clicking an image and then a button of the menu that opens: the menu
    is closed again and removed from the page, the clicked image is still
    the one selected image, of the width classes it has exactly the one of
    the button, its other classes are as before, and every other node is as
    deselecting left it. *)
Theorem click_then_resize u p s :
  is_img p (root u) = true → p ≠ [] →
  body u = option_list (contextMenuEl u) →
  contextMenuEl (click (OnButton s) (click (InEditor p) u)) = None
  ∧ body (click (OnButton s) (click (InEditor p) u)) = []
  ∧ selected_images (root (click (OnButton s) (click (InEditor p) u))) = [p]
  ∧ (∀ q, q ≠ p →
       label_at q (root (click (OnButton s) (click (InEditor p) u)))
         = label_at q (deselect_images (root u)))
  ∧ ∃ cl cl2,
      label_at p (root u) = Some (LElement "img" cl)
      ∧ label_at p (root (click (OnButton s) (click (InEditor p) u)))
          = Some (LElement "img" cl2)
      ∧ size_class s ∈ cl2
      ∧ "image-selected" ∈ cl2
      ∧ (∀ w, w ∈ width_classes → w ∈ cl2 → w = size_class s)
      ∧ (∀ c, c ∉ width_classes → c ≠ "image-selected" →
           c ∈ cl2 ↔ c ∈ cl).
Proof.
  intros Himg Hp Hbody.
  rewrite (click_image _ _ Himg). unfold openContextMenu.
  rewrite closeContextMenu_consistent by done. cbn [root created with_root].
  set (selected := update_at p _ (deselect_images (root u))).
  unfold click. cbn [contextMenuEl]. unfold button_click.
  rewrite closeContextMenu_consistent by done.
  cbn [root contextMenuEl body created with_root].
  assert (Hone : selected_images selected = [p])
    by (by apply selected_images_select).
  assert (Hq : querySelector img_image_selected selected = Some p).
  { rewrite querySelector_first. unfold selected_images in Hone.
    by rewrite Hone. }
  fold (resized s selected). rewrite (resized_selected s _ p Hq).
  apply is_img_label in Himg as [cl Hcl].
  destruct (label_at_select _ p cl Hcl) as (cl1 & Hcl1 & Hmem1).
  fold selected in Hcl1.
  assert (Hlabel : label_at p
      (update_at p (on_classList (classList_add (size_class s)))
         (update_at p (on_classList (classList_remove width_classes))
            selected))
    = Some (LElement "img"
              (classList_remove width_classes cl1 ++ [size_class s]))).
  { rewrite !label_at_update_at, !decide_True, Hcl1 by done. cbn.
    by rewrite (classList_add_after_remove _ _ (size_class_width s)). }
  assert (Hothers : ∀ q, q ≠ p →
    label_at q
      (update_at p (on_classList (classList_add (size_class s)))
         (update_at p (on_classList (classList_remove width_classes))
            selected))
    = label_at q (deselect_images (root u))).
  { intros q Hne. unfold selected. by rewrite !label_at_update_other. }
  assert (Hsel_width : "image-selected" ∉ width_classes).
  { rewrite elem_of_width_classes. by intros [|[|]]. }
  pose proof (size_class_width s) as Hw.
  split_and!; [done|done| |done|].
  - apply selected_images_singleton. intros q.
    rewrite elem_of_selected_images. split.
    + intros (Hq' & clq & Hlq & Hsel).
      destruct (decide (q = p)) as [|Hne]; [done|]. exfalso.
      rewrite (Hothers q Hne) in Hlq.
      assert (Hin : q ∈ selected_images (deselect_images (root u)))
        by (apply elem_of_selected_images; eauto).
      rewrite selected_images_deselect in Hin. by apply elem_of_nil in Hin.
    + intros ->. split; [done|]. eexists. split; [done|].
      rewrite elem_of_app, elem_of_classList_remove, Hmem1. tauto.
  - exists cl. eexists. split; [done|]. split; [done|]. split_and!.
    + rewrite elem_of_app, list_elem_of_singleton. tauto.
    + rewrite elem_of_app, elem_of_classList_remove, Hmem1. tauto.
    + intros w Hww.
      rewrite elem_of_app, elem_of_classList_remove, list_elem_of_singleton.
      tauto.
    + intros c Hc Hcs.
      rewrite elem_of_app, elem_of_classList_remove, list_elem_of_singleton,
        Hmem1.
      split; [|tauto]. intros [[_ [?|?]]| ->]; done.
Qed.

Lemma click_then_resize_witness :
  selected_images
    (root (click (OnButton small)
             (click (InEditor [0; 1])
                (constructed_on Playground.sample_root)))) = [[0; 1]].
Proof.
  apply (click_then_resize (constructed_on Playground.sample_root) [0; 1]
           small); [reflexivity | discriminate | reflexivity].
Defined.

End Clicks.

(** ** Resizing twice *)

Section ResizeTwice.
Import ImageHandler ImageHandlerClicks.

Lemma all_among_alter find h kids i j :
  (∀ k, kids !! i = Some k → find (h k) = find k) →
  all_among find (alter h i kids) j = all_among find kids j.
Proof.
  revert i j. induction kids as [|k kids IH]; intros i j Hh; [done|].
  destruct i as [|i]; cbn.
  - by rewrite (Hh k).
  - f_equal. apply IH. intros k' Hk'. by apply Hh.
Qed.

Lemma all_matches_update sel g p n :
  (∀ t cl, sel t (g cl) = sel t cl) →
  all_matches sel (update_at p (on_classList g) n) = all_matches sel n.
Proof.
  intros Hg. revert n. induction p as [|i p IH]; intros n.
  - destruct n as [t cl kids|d]; cbn; [|done]. by rewrite Hg.
  - destruct n as [t cl kids|d]; cbn; [|done]. f_equal.
    apply all_among_alter. intros k _. apply IH.
Qed.

Lemma querySelector_update sel g p el :
  (∀ t cl, sel t (g cl) = sel t cl) →
  querySelector sel (update_at p (on_classList g) el) = querySelector sel el.
Proof.
  intros Hg. rewrite !querySelector_first. f_equal.
  destruct p as [|i p]; destruct el as [t cl kids|d]; cbn; try done.
  apply all_among_alter. intros k _. by apply all_matches_update.
Qed.

Lemma update_at_compose p f g n :
  update_at p f (update_at p g n) = update_at p (f ∘ g) n.
Proof.
  revert n. induction p as [|i p IH]; intros n; [done|].
  destruct n as [t cl kids|d]; cbn; [|done]. f_equal.
  rewrite list_alter_alter_eq. apply list_alter_ext; [|done].
  intros k _. apply IH.
Qed.

Lemma update_at_ext p f g n :
  (∀ x, f x = g x) → update_at p f n = update_at p g n.
Proof.
  intros Hfg. revert n. induction p as [|i p IH]; intros n; [apply Hfg|].
  destruct n as [t cl kids|d]; cbn; [|done]. f_equal.
  apply list_alter_ext; [|done]. intros k _. apply IH.
Qed.

Lemma selected_remove_widths t cl :
  img_image_selected t (classList_remove width_classes cl)
    = img_image_selected t cl.
Proof.
  unfold img_image_selected. f_equal. apply bool_decide_ext.
  rewrite elem_of_classList_remove, elem_of_width_classes.
  split; [tauto|]. intros Hin. split; [|done]. by intros [|[|]].
Qed.

Lemma selected_add_width s t cl :
  img_image_selected t (classList_add (size_class s) cl)
    = img_image_selected t cl.
Proof.
  unfold img_image_selected. f_equal. apply bool_decide_ext.
  rewrite elem_of_classList_add. split; [|tauto].
  intros [Heq|?]; [|done]. by destruct s.
Qed.

Lemma querySelector_resized s el :
  querySelector img_image_selected (resized s el)
    = querySelector img_image_selected el.
Proof.
  destruct (querySelector img_image_selected el) as [p|] eqn:Hsel.
  - rewrite (resized_selected s el p Hsel), !querySelector_update; [done|..].
    + apply selected_remove_widths.
    + apply selected_add_width.
  - by rewrite (resized_none s el Hsel).
Qed.

Lemma resize_classes_twice s1 s2 x :
  on_classList (classList_add (size_class s2))
    (on_classList (classList_remove width_classes)
       (on_classList (classList_add (size_class s1))
          (on_classList (classList_remove width_classes) x)))
  = on_classList (classList_add (size_class s2))
      (on_classList (classList_remove width_classes) x).
Proof.
  destruct x as [t cl kids|d]; cbn; [|done]. do 2 f_equal.
  rewrite (classList_add_after_remove _ cl (size_class_width s1)).
  unfold classList_remove at 1.
  rewrite filter_app, (filter_cons _ (size_class s1) []).
  rewrite decide_False by (intros Hn; apply Hn, size_class_width).
  rewrite filter_nil, app_nil_r. apply classList_remove_idem.
Qed.

(** Resizing does not change which image is selected, and of two resizings
    in a row only the second counts; in particular resizing twice to the
    same size is the same as doing it once. *)
Theorem adjustImageSize_last_wins s1 s2 root :
  adjustImageSize s2 (adjustImageSize s1 root) = adjustImageSize s2 root
  ∧ adjustImageSize s1 (adjustImageSize s1 root) = adjustImageSize s1 root
  ∧ (∀ el el', root = Some el → adjustImageSize s1 root = Some el' →
       querySelector img_image_selected el'
         = querySelector img_image_selected el).
Proof.
  assert (Htwice : ∀ a b,
    adjustImageSize b (adjustImageSize a root) = adjustImageSize b root).
  { intros a b. destruct root as [el|]; [|done].
    destruct (querySelector img_image_selected el) as [p|] eqn:Hsel.
    - rewrite (adjustImageSize_selected a el p Hsel).
      rewrite <- (resized_selected a el p Hsel).
      pose proof (querySelector_resized a el) as Hsame. rewrite Hsel in Hsame.
      rewrite (adjustImageSize_selected b _ p Hsame),
        (adjustImageSize_selected b el p Hsel),
        (resized_selected a el p Hsel).
      f_equal. rewrite !update_at_compose. apply update_at_ext.
      intros x. apply resize_classes_twice.
    - assert (Hnone : adjustImageSize a (Some el) = Some el)
        by (unfold adjustImageSize; by rewrite Hsel).
      by rewrite Hnone. }
  split_and!; [apply Htwice..|].
  intros el el' -> Hel'. pose proof (querySelector_resized s1 el) as Hsame.
  unfold resized in Hsame. by rewrite Hel' in Hsame.
Qed.

Lemma adjustImageSize_last_wins_witness :
  querySelector img_image_selected
    (Element "div" ["ql-editor"]
      [ Element "p" [] [Text "Intro"; Element "img" ["w-4/5"] []];
        Element "p" []
          [ Element "img" ["image-selected"; "rounded"; "w-3/5"] [];
            Text "caption" ] ])
  = querySelector img_image_selected Playground.sample_root.
Proof.
  apply (adjustImageSize_last_wins small small (Some Playground.sample_root));
    reflexivity.
Defined.

End ResizeTwice.

(** ** Removing images that came from the example service *)

Section UploadedImagesFacts.
Import JS ImageService ImageHandler UploadedImages.
Context {Q : Type} (getContents : Q → delta).



End UploadedImagesFacts.

Section UploadedImagesWitness.
Import JS ImageService ImageHandler UploadedImages.


End UploadedImagesWitness.
